(** * go-proxy: a shallow embedding of the gRPC transparent proxy

    The development follows the layout of the Go package [grpc]:

    - the Go runtime objects the package manipulates (byte slices over
      shared backing arrays, [metadata.MD] maps, errors and status codes);
    - [raw_proto_codec.go]: [RawProtoFrame], [RawProtoCodec];
    - [proto_codec.go]: [ProtoCodec], [StreamDirector], [DefaultDirector];
    - [handler.go]: [Handler], [ForwardOutboundToInbound],
      [ForwardInboundToOutbound];
    - [raw_proto_codec.go] (second part): [RegisterService].

    Mutable Go objects live in an explicit store ([World]); every function
    of the package that mutates or allocates is a computation in the state
    monad [M] over that store. *)

From stdpp Require Import gmap strings list fin_maps.
From Stdlib.Strings Require Import Byte.

Set Default Proof Using "Type".

(** ** Go runtime: slices over shared backing arrays *)

(** Addresses of heap objects (backing arrays, frames, maps). *)
Definition loc := nat.

(** A non-nil slice header: backing array, offset of element 0 in it,
    length and capacity.  The nil slice is [None] in [option slice]. *)
Record slice := mkSlice {
  s_arr : loc;
  s_off : nat;
  s_len : nat;
  s_cap : nat
}.

Global Instance slice_eq_dec : EqDecision slice.
Proof. solve_decision. Defined.

Definition len (s : option slice) : nat := from_option s_len 0 s.
Definition cap (s : option slice) : nat := from_option s_cap 0 s.

Global Instance byte_inhabited : Inhabited byte := populate x00.

Section slices.
Context {A : Type} `{!Inhabited A}.

(** [growslice old n] is the spare capacity the runtime adds when [append]
    has to move a slice of capacity [old] to a new array holding [n]
    elements.  The Go specification leaves it to the implementation. *)
Variable growslice : nat → nat → nat.

(** The elements a slice denotes in a heap of backing arrays. *)
Definition slice_read (h : gmap loc (list A)) (s : option slice) : list A :=
  match s with
  | None => []
  | Some s => take (s_len s) (drop (s_off s) (h !!! s_arr s))
  end.

(** A slice header is valid when its window lies inside its array. *)
Definition slice_ok (h : gmap loc (list A)) (s : option slice) : Prop :=
  match s with
  | None => True
  | Some s =>
      match h !! s_arr s with
      | Some cells => s_len s ≤ s_cap s ∧ s_off s + s_cap s ≤ length cells
      | None => False
      end
  end.

Global Instance slice_ok_dec h s : Decision (slice_ok h s).
Proof.
  destruct s as [s0|]; simpl; [|apply _].
  destruct (h !! s_arr s0); apply _.
Defined.

(** Two slices that do not share a backing array (a nil slice has none). *)
Definition slices_apart (s t : option slice) : Prop :=
  match s, t with
  | Some s, Some t => s_arr s ≠ s_arr t
  | _, _ => True
  end.

(** [h'] keeps every array of [h] as it is. *)
Definition heap_ext (h h' : gmap loc (list A)) : Prop :=
  ∀ a, a ∈ dom h → h' !! a = h !! a.

(** [copy(arr[off:], xs)] on a backing array. *)
Definition array_write (h : gmap loc (list A)) (a : loc) (off : nat)
    (xs : list A) : gmap loc (list A) :=
  alter (λ cells, take off cells ++ xs ++ drop (off + length xs) cells) a h.

(** [s[:0]] *)
Definition reslice0 (s : option slice) : option slice :=
  (λ s, mkSlice (s_arr s) (s_off s) 0 (s_cap s)) <$> s.

(** [s[i] = x]; [None] is the index-out-of-range panic. *)
Definition slice_store (h : gmap loc (list A)) (s : option slice) (i : nat)
    (x : A) : option (gmap loc (list A)) :=
  match s with
  | Some s =>
      if decide (i < s_len s)
      then Some (alter (λ cells, <[s_off s + i := x]> cells) (s_arr s) h)
      else None
  | None => None
  end.


(** [make([]A, len(xs))] followed by [copy]: a fresh array holding [xs]. *)
Definition alloc (h : gmap loc (list A)) (xs : list A)
    : gmap loc (list A) * slice :=
  let a := fresh (dom h) in
  (<[a := xs]> h, mkSlice a 0 (length xs) (length xs)).

(** [append(s, xs...)], the elements [xs] already read from their slice
    (the runtime copies with [memmove], so an overlapping source is read
    before it is overwritten).  Within capacity the elements are written
    in place behind the slice; otherwise the slice moves to a fresh array. *)
Definition append (h : gmap loc (list A)) (s : option slice) (xs : list A)
    : gmap loc (list A) * option slice :=
  let n := len s + length xs in
  if decide (n ≤ cap s) then
    match s with
    | None => (h, None)
    | Some s0 =>
        (array_write h (s_arr s0) (s_off s0 + s_len s0) xs,
         Some (mkSlice (s_arr s0) (s_off s0) n (s_cap s0)))
    end
  else
    let a := fresh (dom h) in
    let c := n + growslice (cap s) n in
    (<[a := slice_read h s ++ xs ++ replicate (c - n) inhabitant]> h,
     Some (mkSlice a 0 n c)).
End slices.

(** ** Errors and status codes *)

Module codes.
(** [google.golang.org/grpc/codes.Code] *)
Inductive Code :=
| OK | Canceled | Unknown | InvalidArgument | DeadlineExceeded | NotFound
| AlreadyExists | PermissionDenied | ResourceExhausted | FailedPrecondition
| Aborted | OutOfRange | Unimplemented | Internal | Unavailable | DataLoss
| Unauthenticated.

Global Instance Code_eq_dec : EqDecision Code.
Proof. solve_decision. Defined.

Definition String (c : Code) : string :=
  match c with
  | OK => "OK" | Canceled => "Canceled" | Unknown => "Unknown"
  | InvalidArgument => "InvalidArgument"
  | DeadlineExceeded => "DeadlineExceeded" | NotFound => "NotFound"
  | AlreadyExists => "AlreadyExists"
  | PermissionDenied => "PermissionDenied"
  | ResourceExhausted => "ResourceExhausted"
  | FailedPrecondition => "FailedPrecondition" | Aborted => "Aborted"
  | OutOfRange => "OutOfRange" | Unimplemented => "Unimplemented"
  | Internal => "Internal" | Unavailable => "Unavailable"
  | DataLoss => "DataLoss" | Unauthenticated => "Unauthenticated"
  end.
End codes.

(** Non-nil values of Go's [error] interface, as far as the package tells
    them apart: the sentinel [io.EOF] (compared with [==]), gRPC status
    errors, and any other error, known by its message.  A possibly nil
    [error] is an [option error]. *)
Inductive error :=
| io_EOF
| status_Error (c : codes.Code) (msg : string)
| errors_New (msg : string).

Global Instance error_eq_dec : EqDecision error.
Proof. solve_decision. Defined.

(** [err.Error()], which the verb [%v] prints. *)
Definition Error (e : error) : string :=
  match e with
  | io_EOF => "EOF"
  | status_Error c msg =>
      "rpc error: code = " +:+ codes.String c +:+ " desc = " +:+ msg
  | errors_New msg => msg
  end.

Module status.
(** [status.Errorf(c, format, a...)], the message already formatted.  Every
    call of the package passes a code other than [OK]. *)
Definition Errorf (c : codes.Code) (msg : string) : error :=
  status_Error c msg.

(** [status.Code(err)] *)
Definition Code (err : option error) : codes.Code :=
  match err with
  | None => codes.OK
  | Some (status_Error c _) => c
  | Some _ => codes.Unknown
  end.
End status.

(** ** Metadata, contexts and the observable calls *)

(** The contents of a [metadata.MD] ([map[string][]string]).  Header and
    trailer metadata handed through the stream interfaces are identified
    with their contents; metadata attached to a context is a reference into
    the store, see [World]. *)
Abbreviation MD := (gmap string (list string)).

(** Method calls on a [grpc.ClientStream] or [grpc.ServerStream]. *)
Inductive StreamCall :=
| CallRecvMsg
| CallSendMsg (payload : list byte)
| CallHeader
| CallSendHeader (md : MD)
| CallCloseSend
| CallTrailer
| CallSetTrailer (md : MD).

(** What the proxy does to its environment. *)
Inductive Event :=
| EvNewClientStream (fullMethodName : string)
| EvCancel                       (* clientCancel() *)
| EvClientStream (c : StreamCall)  (* a call on the outbound stream *)
| EvServerStream (c : StreamCall). (* a call on the inbound stream *)

(** The goroutines of one proxied call. *)
Inductive Goroutine := GoHandler | GoInboundToOutbound | GoOutboundToInbound.

Global Instance Goroutine_eq_dec : EqDecision Goroutine.
Proof. solve_decision. Defined.

(** ** The store *)

Record World := mkWorld {
  (** the runtime's [growslice] policy, see [append] *)
  w_grow : nat → nat → nat;
  (** the order in which the runtime lets a [range] loop visit a map, see
      [range] *)
  w_range : gmap string (option slice) → list (string * option slice);
  (** [strings.Map(unicode.ToLower, s)], the case mapping of the Unicode
      tables, which the library applies to strings that are not ASCII; the
      tables are not part of this development, see [strings_ToLower] *)
  w_unicode : string → string;
  (** backing arrays of [[]byte] slices *)
  w_bytes : gmap loc (list byte);
  (** [RawProtoFrame] objects: the value of their [Payload] field *)
  w_frames : gmap loc (option slice);
  (** backing arrays of [[]string] slices *)
  w_strs : gmap loc (list string);
  (** [metadata.MD] maps *)
  w_mds : gmap loc (gmap string (option slice));
  (** the runtime's choice in the [i]-th [select] of the handler when both
      channels are ready: [true] for the first case *)
  w_sched : nat → bool;
  (** the goroutine that is running *)
  w_cur : Goroutine;
  (** calls made so far, oldest first, each with its goroutine.  Goroutines
      are run one after the other, so only the order of the calls of one
      goroutine is meaningful. *)
  w_log : list (Goroutine * Event)
}.

Definition set_bytes (h : gmap loc (list byte)) (w : World) : World :=
  mkWorld (w_grow w) (w_range w) (w_unicode w) h (w_frames w) (w_strs w)
    (w_mds w) (w_sched w) (w_cur w) (w_log w).
Definition set_frames (fs : gmap loc (option slice)) (w : World) : World :=
  mkWorld (w_grow w) (w_range w) (w_unicode w) (w_bytes w) fs (w_strs w)
    (w_mds w) (w_sched w) (w_cur w) (w_log w).
Definition set_strs (h : gmap loc (list string)) (w : World) : World :=
  mkWorld (w_grow w) (w_range w) (w_unicode w) (w_bytes w) (w_frames w) h
    (w_mds w) (w_sched w) (w_cur w) (w_log w).
Definition set_mds (m : gmap loc (gmap string (option slice))) (w : World)
    : World :=
  mkWorld (w_grow w) (w_range w) (w_unicode w) (w_bytes w) (w_frames w)
    (w_strs w) m (w_sched w) (w_cur w) (w_log w).
Definition set_cur (g : Goroutine) (w : World) : World :=
  mkWorld (w_grow w) (w_range w) (w_unicode w) (w_bytes w) (w_frames w)
    (w_strs w) (w_mds w) (w_sched w) g (w_log w).
Definition set_log (l : list (Goroutine * Event)) (w : World) : World :=
  mkWorld (w_grow w) (w_range w) (w_unicode w) (w_bytes w) (w_frames w)
    (w_strs w) (w_mds w) (w_sched w) (w_cur w) l.

(** State monad over the store. *)
Definition M (A : Type) : Type := World → A * World.

Global Instance M_ret : MRet M := λ A a w, (a, w).
Global Instance M_bind : MBind M := λ A B f m w, let '(a, w') := m w in f a w'.

Definition emit (e : Event) : M unit :=
  λ w, (tt, set_log (w_log w ++ [(w_cur w, e)]) w).

(** The calls a goroutine made, in order. *)
Definition calls_of (g : Goroutine) (w : World) : list Event :=
  (filter (λ ge, ge.1 = g) (w_log w)).*2.

(** ** raw_proto_codec.go

    The file holds the codec twice, over [RawProtoFrame] with the field
    [Payload] and over [frame] with the field [payload]; the two copies are
    the same code, and one embedding serves both. *)

(** [proto.Message] values are opaque to the proxy: a message is known by
    what the protobuf library does with it. *)
Record Message := mkMessage {
  proto_Marshal : M (option slice * option error);
  proto_Unmarshal : option slice → M (option error)
}.

(** Values of type [any] handed to a codec: a [*RawProtoFrame], a
    [proto.Message], or a value of some other dynamic type, known by the
    name [%T] prints. *)
Inductive any :=
| AnyFrame (f : loc)
| AnyMessage (m : Message)
| AnyOther (T : string).

(** [f.Payload] and [f.Payload = s] *)
Definition load_Payload (f : loc) : M (option slice) :=
  λ w, (default None (w_frames w !! f), w).
Definition store_Payload (f : loc) (s : option slice) : M unit :=
  λ w, (tt, set_frames (<[f := s]> (w_frames w)) w).

(** [&RawProtoFrame{}] *)
Definition new_RawProtoFrame : M loc :=
  λ w, let f := fresh (dom (w_frames w)) in
       (f, set_frames (<[f := None]> (w_frames w)) w).

(** [append(s, data...)] on byte slices *)
Definition append_bytes (s data : option slice) : M (option slice) :=
  λ w, let '(h, s') := append (w_grow w) (w_bytes w) s
                         (slice_read (w_bytes w) data) in
       (s', set_bytes h w).

Module ProtoCodec.
Definition Name : string := "proto".

Definition Marshal (v : any) : M (option slice * option error) :=
  match v with
  | AnyMessage m => proto_Marshal m
  | AnyFrame _ =>
      mret (None, Some (errors_New "expected proto.Message, got *grpc.RawProtoFrame"))
  | AnyOther T =>
      mret (None, Some (errors_New ("expected proto.Message, got " +:+ T)))
  end.

Definition Unmarshal (data : option slice) (v : any) : M (option error) :=
  match v with
  | AnyMessage m => proto_Unmarshal m data
  | AnyFrame _ =>
      mret (Some (errors_New "expected proto.Message, got *grpc.RawProtoFrame"))
  | AnyOther T =>
      mret (Some (errors_New ("expected proto.Message, got " +:+ T)))
  end.
End ProtoCodec.

Module BaseProtoCodec := ProtoCodec.

Module RawProtoCodec.
Definition Name : string := BaseProtoCodec.Name.

Definition Marshal (v : any) : M (option slice * option error) :=
  match v with
  | AnyFrame f =>
      payload ← load_Payload f;
      mret (payload, None)
  | _ => BaseProtoCodec.Marshal v
  end.

Definition Unmarshal (data : option slice) (v : any) : M (option error) :=
  match v with
  | AnyFrame f =>
      if decide (len data = 0) then
        store_Payload f None;;
        mret None
      else
        payload ← load_Payload f;
        s ← append_bytes (reslice0 payload) data;
        store_Payload f s;;
        mret None
  | _ => BaseProtoCodec.Unmarshal data v
  end.
End RawProtoCodec.

(** The bytes a frame holds. *)
Definition frame_bytes (w : World) (f : loc) : list byte :=
  slice_read (w_bytes w) (default None (w_frames w !! f)).

(** The frame's payload is a valid slice of the store. *)
Definition frame_ok (w : World) (f : loc) : Prop :=
  slice_ok (w_bytes w) (default None (w_frames w !! f)).


(** ** Streams and connections, as the proxy sees them *)

(** What one [RecvMsg] call finds: the bytes of the next message, or an
    error ([io.EOF] for a clean end of the stream). *)
Inductive Recv :=
| RecvData (data : list byte)
| RecvErr (e : error).

(** [context.Context], as far as the package looks into it: the metadata
    attached under the incoming and the outgoing key (references to
    [metadata.MD] maps, absent when none is attached). *)
Record Context := mkContext {
  ctx_incoming : option loc;
  ctx_outgoing : option loc
}.

(** A [grpc.ServerStream] is known by what its methods answer.  [RecvMsg]
    answers from the list [ss_RecvMsg], one entry per call; once the list is
    used up the call blocks for ever (the peer neither sends nor closes). *)
Record ServerStream := mkServerStream {
  ss_Method : option string;          (* grpc.MethodFromServerStream *)
  ss_Context : Context;
  ss_RecvMsg : list Recv;
  ss_SendHeader : option error;
  ss_SendMsg : nat → option error     (* the answer to the n-th SendMsg *)
}.

(** A [grpc.ClientStream], likewise. *)
Record ClientStream := mkClientStream {
  cs_RecvMsg : list Recv;
  cs_Header : MD * option error;
  cs_SendMsg : nat → option error;
  cs_CloseSend : option error;
  cs_Trailer : MD
}.

(** A [*grpc.ClientConn] is known by what opening a stream for a method on
    it gives.  A nil connection is [None] in [option ClientConn]. *)
Record ClientConn := mkClientConn {
  cc_NewStream : string → ClientStream + error
}.

(** ** proto_codec.go: directors *)

(** The map behind a [metadata.MD] value; a nil map has no entries. *)
Definition MD_entries (w : World) (md : option loc)
    : gmap string (option slice) :=
  default ∅ (md ≫= λ l, w_mds w !! l).

(** The contents of a [metadata.MD] value. *)
Definition MD_read (w : World) (md : option loc) : MD :=
  slice_read (w_strs w) <$> MD_entries w md.

(** The entries of a map in the order a [range] loop visits them.  The
    runtime is free to take any order, and takes another one each time; here
    it is the order the store proposes, whenever that is an enumeration of
    the map. *)
Definition range (w : World) (m : gmap string (option slice))
    : list (string * option slice) :=
  if decide (w_range w m ≡ₚ map_to_list m) then w_range w m
  else map_to_list m.

(** [strings.ToLower(s)]: in a string of ASCII bytes the letters [A] to [Z]
    are replaced by [a] to [z], byte by byte; any other string is mapped
    rune by rune with [unicode.ToLower]. *)
Fixpoint isASCII (s : string) : bool :=
  match s with
  | EmptyString => true
  | String c s => (Ascii.N_of_ascii c <? 128)%N && isASCII s
  end.

Definition lower (c : Ascii.ascii) : Ascii.ascii :=
  if (65 <=? Ascii.N_of_ascii c)%N && (Ascii.N_of_ascii c <=? 90)%N
  then Ascii.ascii_of_N (Ascii.N_of_ascii c + 32)
  else c.

Fixpoint map_bytes (f : Ascii.ascii → Ascii.ascii) (s : string) : string :=
  match s with
  | EmptyString => EmptyString
  | String c s => String (f c) (map_bytes f s)
  end.

Definition strings_ToLower (w : World) (s : string) : string :=
  if isASCII s then map_bytes lower s else w_unicode w s.

Module metadata.
(** [metadata.NewOutgoingContext(ctx, md)] *)
Definition NewOutgoingContext (ctx : Context) (md : option loc) : Context :=
  mkContext (ctx_incoming ctx) md.

(** [make(MD, n)] *)
Definition make : M loc :=
  λ w, let l := fresh (dom (w_mds w)) in
       (l, set_mds (<[l := ∅]> (w_mds w)) w).

(** [copyOf(v)]: [make([]string, len(v))] and [copy]. *)
Definition copyOf (v : option slice) : M (option slice) :=
  λ w, let '(h, s) := alloc (w_strs w) (slice_read (w_strs w) v) in
       (Some s, set_strs h w).

(** [md[k] = v] on a non-nil map *)
Definition assign (md : loc) (k : string) (v : option slice) : M unit :=
  λ w, (tt, set_mds (alter <[k := v]> md (w_mds w)) w).

(** [for k, v := range md { key := strings.ToLower(k);
    out[key] = copyOf(v) }] *)
Fixpoint lower_entries (kvs : list (string * option slice)) (out : loc)
    : M unit :=
  match kvs with
  | [] => mret tt
  | (k, v) :: kvs =>
      λ w, (let key := strings_ToLower w k in
            vals ← copyOf v;
            assign out key vals;;
            lower_entries kvs out) w
  end.

(** [metadata.FromIncomingContext(ctx)]: nil and [false] when no metadata is
    attached to [ctx] under the incoming key; otherwise [true] and a new
    map that holds, for every entry of the attached one, a copy of its
    values under the lower-cased key.  Keys that differ only in case fall
    on one entry, which keeps the values of the key visited last. *)
Definition FromIncomingContext (ctx : Context) : M (option loc * bool) :=
  match ctx_incoming ctx with
  | None => mret (None, false)
  | Some md =>
      λ w, (out ← make;
            lower_entries (range w (MD_entries w (Some md))) out;;
            mret (Some out, true)) w
  end.

(** [for k, v := range md { out[k] = copyOf(v) }] *)
Fixpoint copy_entries (kvs : list (string * option slice)) (out : loc)
    : M unit :=
  match kvs with
  | [] => mret tt
  | (k, v) :: kvs =>
      vals ← copyOf v;
      assign out k vals;;
      copy_entries kvs out
  end.

(** [md.Copy()] *)
Definition Copy (md : option loc) : M (option loc) :=
  λ w, (out ← make;
        copy_entries (range w (MD_entries w md)) out;;
        mret (Some out)) w.
End metadata.

(** The metadata value refers to an allocated map whose values are valid
    slices. *)
Definition MD_ok (w : World) (md : option loc) : Prop :=
  match md with
  | None => True
  | Some l =>
      match w_mds w !! l with
      | Some m => map_Forall (λ _ v, slice_ok (w_strs w) v) m
      | None => False
      end
  end.

Global Instance MD_ok_dec w md : Decision (MD_ok w md).
Proof.
  destruct md as [l|]; simpl; [|apply _].
  destruct (w_mds w !! l); apply _.
Defined.

(** [StreamDirector] *)
Definition StreamDirector : Type :=
  ∀ (ctx : Context) (fullMethodName : string),
    M (Context * option ClientConn * option error).

Definition DefaultDirector (cc : option ClientConn) : StreamDirector :=
  λ ctx fullMethodName,
    '(md, _) ← metadata.FromIncomingContext ctx;
    md' ← metadata.Copy md;
    let outgoingCtx := metadata.NewOutgoingContext ctx md' in
    mret (outgoingCtx, cc, None).

(** What the holder of a [metadata.MD] can do to it. *)
Inductive MDop :=
| MDassign (k : string) (vals : list string)   (* md[k] = []string{vals...} *)
| MDappend (k : string) (vals : list string)   (* md[k] = append(md[k], vals...) *)
| MDdelete (k : string)                        (* delete(md, k) *)
| MDstore (k : string) (i : nat) (v : string). (* md[k][i] = v *)

(** One such operation on the map at [md].  A store out of range panics
    and changes nothing. *)
Definition MD_apply (md : loc) (op : MDop) : M unit :=
  match op with
  | MDassign k vals =>
      λ w, let '(h, s) := alloc (w_strs w) vals in
           metadata.assign md k (Some s) (set_strs h w)
  | MDappend k vals =>
      λ w, let '(h, s) := append (w_grow w) (w_strs w)
                            (default None (MD_entries w (Some md) !! k)) vals in
           metadata.assign md k s (set_strs h w)
  | MDdelete k =>
      λ w, (tt, set_mds (alter (delete k) md (w_mds w)) w)
  | MDstore k i v =>
      λ w, match slice_store (w_strs w)
                   (default None (MD_entries w (Some md) !! k)) i v with
           | Some h => (tt, set_strs h w)
           | None => (tt, w)
           end
  end.

Fixpoint MD_apply_all (md : loc) (ops : list MDop) : M unit :=
  match ops with
  | [] => mret tt
  | op :: ops => MD_apply md op;; MD_apply_all md ops
  end.

(** [w'] is a later store than [w] in which the map [o], made after [w], is
    detached from everything [w] holds: the string arrays and the maps of
    [w] are as they were, and the values of [o] lie in arrays [w] does not
    have. *)
Definition detached (w : World) (o : loc) (w' : World) : Prop :=
  (o ∉ dom (w_mds w)) ∧
  heap_ext (w_strs w) (w_strs w') ∧
  (∀ l, l ∈ dom (w_mds w) → w_mds w' !! l = w_mds w !! l) ∧
  (∀ k (s : slice), MD_entries w' (Some o) !! k = Some (Some s) →
     s_arr s ∉ dom (w_strs w)).

(** [w'] is a later store than [w]: the string arrays and the maps of [w]
    are as they were. *)
Definition later (w w' : World) : Prop :=
  heap_ext (w_strs w) (w_strs w') ∧
  (∀ l, l ∈ dom (w_mds w) → w_mds w' !! l = w_mds w !! l).

(** [m'] holds the entries of [m] under lower-cased keys: every entry of
    [m'] has the values of an entry of [m] whose key lower-cases to its key,
    and every key of [m] has its lower-cased form in [m'].  Keys of [m] that
    differ only in case share one entry of [m']. *)
Definition lower_cased (w : World) (m m' : MD) : Prop :=
  (∀ k vals, m' !! k = Some vals →
     ∃ k0, strings_ToLower w k0 = k ∧ m !! k0 = Some vals) ∧
  (∀ k0, k0 ∈ dom m → strings_ToLower w k0 ∈ dom m').

(** ** handler.go *)

(** What a stream handler does: it returns an error or nil, or it never
    returns. *)
Inductive Outcome :=
| Return (err : option error)
| Hang.

(** [grpc.StreamHandler] *)
Definition StreamHandler : Type := any → ServerStream → M Outcome.

(** [grpc.StreamDesc] *)
Record StreamDesc := mkStreamDesc {
  StreamName : string;
  Handler : option StreamHandler;
  ServerStreams : bool;
  ClientStreams : bool
}.

Definition clientStreamDescForProxying : StreamDesc :=
  mkStreamDesc "" None true true.

(** [grpc.CallOption]; the proxy uses [grpc.ForceCodec] only. *)
Inductive CallOption :=
| ForceCodec (Name : string).

(** proxy.go *)
Definition DefaultClientCallOpts : list CallOption :=
  [ForceCodec RawProtoCodec.Name].

(** A [chan error] seen from its receiver: the values that arrive on it, in
    order.  Nothing ever arrives on [[]]. *)
Definition chan : Type := list error.

(** [go func() { ... }()]: the goroutine [g] runs [body].  The goroutines of
    a call work on objects of their own, so each is run to its end when it is
    started; its calls are logged under its name. *)
Definition go {A} (g : Goroutine) (body : M A) : M A :=
  λ w, let '(a, w') := body (set_cur g w) in (a, set_cur (w_cur w) w').

(** [grpc.MethodFromServerStream(stream)] *)
Definition MethodFromServerStream (stream : ServerStream) : option string :=
  ss_Method stream.

(** [context.WithCancel(ctx)]: the derived context and its cancel function. *)
Definition WithCancel (ctx : Context) : Context * M unit :=
  (ctx, emit EvCancel).

(** [grpc.NewClientStream(ctx, desc, cc, method, opts...)] *)
Definition NewClientStream (ctx : Context) (desc : StreamDesc)
    (cc : ClientConn) (method : string) (opts : list CallOption)
    : M (ClientStream + error) :=
  emit (EvNewClientStream method);;
  mret (cc_NewStream cc method).

(** The bytes the transport read are in a buffer of its own. *)
Definition transport_buffer (data : list byte) : M (option slice) :=
  λ w, let '(h, s) := alloc (w_bytes w) data in (Some s, set_bytes h w).

(** The bytes of a slice, as they go out on the wire. *)
Definition read_bytes (data : option slice) : M (list byte) :=
  λ w, (slice_read (w_bytes w) data, w).

(** [stream.RecvMsg(f)] when the stream has [r] next; [ev] tells the two
    kinds of stream apart in the log.  Both streams of the proxy decode with
    [RawProtoCodec] ([DefaultProxyServerOpt], [DefaultClientCallOpts]). *)
Definition RecvMsg (ev : StreamCall → Event) (r : Recv) (f : loc)
    : M (option error) :=
  emit (ev CallRecvMsg);;
  match r with
  | RecvErr e => mret (Some e)
  | RecvData data =>
      buf ← transport_buffer data;
      RawProtoCodec.Unmarshal buf (AnyFrame f)
  end.

(** [stream.SendMsg(f)], which the transport answers by [answer]: the frame
    is encoded with [RawProtoCodec] and the bytes go out. *)
Definition SendMsg (ev : StreamCall → Event) (answer : option error) (f : loc)
    : M (option error) :=
  '(data, _) ← RawProtoCodec.Marshal (AnyFrame f);
  payload ← read_bytes data;
  emit (ev (CallSendMsg payload));;
  mret answer.

(** Calls on the outbound stream. *)
Definition Header (src : ClientStream) : M (MD * option error) :=
  emit (EvClientStream CallHeader);;
  mret (cs_Header src).

Definition CloseSend (clientStream : ClientStream) : M (option error) :=
  emit (EvClientStream CallCloseSend);;
  mret (cs_CloseSend clientStream).

Definition Trailer (clientStream : ClientStream) : M MD :=
  emit (EvClientStream CallTrailer);;
  mret (cs_Trailer clientStream).

(** Calls on the inbound stream. *)
Definition SendHeader (dst : ServerStream) (md : MD) : M (option error) :=
  emit (EvServerStream (CallSendHeader md));;
  mret (ss_SendHeader dst).

Definition SetTrailer (serverStream : ServerStream) (md : MD) : M unit :=
  emit (EvServerStream (CallSetTrailer md)).

(** What a [select] over the two error channels of the handler does: it
    receives from the first, from the second, or blocks for ever. *)
Inductive Selected :=
| FromFirst (e : error)
| FromSecond (e : error)
| Blocks.

(** [select { case e := <-c1: ... case e := <-c2: ... }]: when only one
    channel ever has a value it is the one served; when both have, the
    runtime chooses ([first]); the channels left over are returned. *)
Definition select (first : bool) (c1 c2 : chan) : Selected * chan * chan :=
  match c1, c2 with
  | [], [] => (Blocks, c1, c2)
  | e :: c1', [] => (FromFirst e, c1', c2)
  | [], e :: c2' => (FromSecond e, c1, c2')
  | e1 :: c1', e2 :: c2' =>
      if first then (FromFirst e1, c1', c2) else (FromSecond e2, c1, c2')
  end.

Module Handler.
Record t := mk {
  director : StreamDirector
}.

(** The loop of the goroutine of [ForwardOutboundToInbound]; [pending] is
    what [src.RecvMsg] still has to answer.  The value is what the
    goroutine sends on [ret]: one error, or nothing when [RecvMsg] blocks
    for ever. *)
Fixpoint ForwardOutboundToInbound_loop (pending : list Recv) (i : nat)
    (src : ClientStream) (dst : ServerStream) (f : loc) : M chan :=
  match pending with
  | [] => mret []
  | r :: pending =>
      err ← RecvMsg EvClientStream r f;
      match err with
      | Some err => mret [err]
      | None =>
          err ← (if decide (i = 0) then
                   '(md, err) ← Header src;
                   match err with
                   | Some err => mret (Some err)
                   | None => SendHeader dst md
                   end
                 else mret None);
          match err with
          | Some err => mret [err]
          | None =>
              err ← SendMsg EvServerStream (ss_SendMsg dst i) f;
              match err with
              | Some err => mret [err]
              | None => ForwardOutboundToInbound_loop pending (S i) src dst f
              end
          end
      end
  end.

Definition ForwardOutboundToInbound (h : t) (src : ClientStream)
    (dst : ServerStream) : M chan :=
  go GoOutboundToInbound (
    f ← new_RawProtoFrame;
    ForwardOutboundToInbound_loop (cs_RecvMsg src) 0 src dst f).

(** The loop of the goroutine of [ForwardInboundToOutbound]; [n] counts
    the messages sent so far. *)
Fixpoint ForwardInboundToOutbound_loop (pending : list Recv) (n : nat)
    (src : ServerStream) (dst : ClientStream) (f : loc) : M chan :=
  match pending with
  | [] => mret []
  | r :: pending =>
      err ← RecvMsg EvServerStream r f;
      match err with
      | Some err => mret [err]
      | None =>
          err ← SendMsg EvClientStream (cs_SendMsg dst n) f;
          match err with
          | Some err => mret [err]
          | None => ForwardInboundToOutbound_loop pending (S n) src dst f
          end
      end
  end.

Definition ForwardInboundToOutbound (h : t) (src : ServerStream)
    (dst : ClientStream) : M chan :=
  go GoInboundToOutbound (
    f ← new_RawProtoFrame;
    ForwardInboundToOutbound_loop (ss_RecvMsg src) 0 src dst f).

(** [for i := 0; i < 2; i++ { select { ... } }] and the statement after
    it; [n] is the number of iterations left. *)
Fixpoint reconcile (n i : nat) (clientStream : ClientStream)
    (serverStream : ServerStream) (clientCancel : M unit)
    (inboundToOutboundErrChan outboundToInboundErrChan : chan) : M Outcome :=
  match n with
  | 0 =>
      mret (Return (Some (status.Errorf codes.Internal
        "gRPC proxying should never reach this stage.")))
  | S n =>
      λ w,
      match select (w_sched w i)
              inboundToOutboundErrChan outboundToInboundErrChan with
      | (Blocks, _, _) => (Hang, w)
      | (FromFirst inboundToOutboundErr, inCh, outCh) =>
          (if decide (inboundToOutboundErr = io_EOF) then
             cCloseErr ← CloseSend clientStream;
             match cCloseErr with
             | Some cCloseErr => mret (Return (Some cCloseErr))
             | None =>
                 reconcile n (S i) clientStream serverStream clientCancel
                   inCh outCh
             end
           else
             clientCancel;;
             mret (Return (Some (status.Errorf codes.Internal
               ("failed proxying inbound to outbound: "
                +:+ Error inboundToOutboundErr))))) w
      | (FromSecond outboundToInboundErr, _, _) =>
          (md ← Trailer clientStream;
           SetTrailer serverStream md;;
           if decide (outboundToInboundErr ≠ io_EOF)
           then mret (Return (Some outboundToInboundErr))
           else mret (Return None)) w
      end
  end.

(** [defer clientCancel()]: runs when the function returns. *)
Definition defer (clientCancel : M unit) (body : M Outcome) : M Outcome :=
  out ← body;
  match out with
  | Return err => clientCancel;; mret (Return err)
  | Hang => mret Hang
  end.

Definition Handler (h : t) (srv : any) (serverStream : ServerStream)
    : M Outcome :=
  match MethodFromServerStream serverStream with
  | None =>
      mret (Return (Some (status.Errorf codes.Internal
        "lowLevelServerStream does not exist in context")))
  | Some fullMethodName =>
      '(outgoingCtx, targetConn, err) ←
        director h (ss_Context serverStream) fullMethodName;
      match err with
      | Some err => mret (Return (Some err))
      | None =>
      match targetConn with
      | None =>
          mret (Return (Some (status.Errorf codes.Unavailable
            "target connection is nil")))
      | Some targetConn =>
          let '(clientCtx, clientCancel) := WithCancel outgoingCtx in
          defer clientCancel (
            r ← NewClientStream clientCtx clientStreamDescForProxying
                  targetConn fullMethodName DefaultClientCallOpts;
            match r with
            | inr err => mret (Return (Some err))
            | inl clientStream =>
                inboundToOutboundErrChan ←
                  ForwardInboundToOutbound h serverStream clientStream;
                outboundToInboundErrChan ←
                  ForwardOutboundToInbound h clientStream serverStream;
                reconcile 2 0 clientStream serverStream clientCancel
                  inboundToOutboundErrChan outboundToInboundErrChan
            end)
      end
      end
  end.
End Handler.

(** [TransparentHandler(director)] *)
Definition TransparentHandler (director : StreamDirector) : StreamHandler :=
  let streamer := Handler.mk director in
  Handler.Handler streamer.

(** ** raw_proto_codec.go, second part: RegisterService *)

(** [grpc.ServiceDesc]; the proxy sets its name and its streams. *)
Record ServiceDesc := mkServiceDesc {
  ServiceName : string;
  Streams : list StreamDesc
}.

(** A [*grpc.Server], as far as registration and dispatch go: for every
    registered service its implementation and its stream handlers by method
    name, and the handler installed with [grpc.UnknownServiceHandler], if
    any. *)
Record Server := mkServer {
  services : gmap string (any * gmap string StreamDesc);
  unknownStreamDesc : option StreamHandler
}.

(** [server.RegisterService(sd, ss)]: a second registration of a service
    name is fatal ([None]); a later stream of the same name replaces an
    earlier one. *)
Definition Server_RegisterService (sd : ServiceDesc) (ss : any) (server : Server)
    : option Server :=
  match services server !! ServiceName sd with
  | Some _ => None
  | None =>
      let streams :=
        foldl (λ m d, <[StreamName d := d]> m) ∅ (Streams sd) in
      Some (mkServer (<[ServiceName sd := (ss, streams)]> (services server))
              (unknownStreamDesc server))
  end.

(** What the server does with a call of [/service/method]: it runs a stream
    handler on a service implementation, or rejects the call. *)
Inductive Dispatch :=
| RunHandler (srv : any) (handler : StreamHandler)
| Reject (err : error).

(** The dispatch of [grpc.Server] for stream methods, the full method name
    already split at its last slash: the handler registered for the method
    of the service; failing that the unknown-service handler, run without a
    service implementation; failing that the status [Unimplemented].  (A
    stream registered without a handler counts as not registered.) *)
Definition Server_handleStream (server : Server) (service method : string)
    : Dispatch :=
  let unknown (errDesc : string) :=
    match unknownStreamDesc server with
    | Some handler => RunHandler (AnyOther "<nil>") handler
    | None => Reject (status.Errorf codes.Unimplemented errDesc)
    end in
  match services server !! service with
  | Some (srv, streams) =>
      match streams !! method ≫= Handler with
      | Some handler => RunHandler srv handler
      | None =>
          unknown ("unknown method " +:+ method +:+ " for service " +:+ service)
      end
  | None => unknown ("unknown service " +:+ service)
  end.

(** The server serving one call. *)
Definition Server_serve (server : Server) (service method : string)
    (stream : ServerStream) : M Outcome :=
  match Server_handleStream server service method with
  | RunHandler srv handler => handler srv stream
  | Reject err => mret (Return (Some err))
  end.

(** The stream descriptor [RegisterService] makes for a method name. *)
Definition streamDesc_of (streamer : Handler.t) (m : string) : StreamDesc :=
  mkStreamDesc m (Some (Handler.Handler streamer)) true true.

(** The descriptor [RegisterService] builds: the loop over [methodNames]
    appends one stream descriptor per name. *)
Definition fakeDesc (streamer : Handler.t) (serviceName : string)
    (methodNames : list string) : ServiceDesc :=
  foldl (λ fakeDesc m,
           let streamDesc :=
             mkStreamDesc m (Some (Handler.Handler streamer)) true true in
           mkServiceDesc (ServiceName fakeDesc)
             (Streams fakeDesc ++ [streamDesc]))
    (mkServiceDesc serviceName []) methodNames.

Definition RegisterService (server : Server) (director : StreamDirector)
    (serviceName : string) (methodNames : list string) : option Server :=
  let streamer := Handler.mk director in
  Server_RegisterService (fakeDesc streamer serviceName methodNames)
    (AnyOther "*grpc.Handler") server.

(** ** proxy.go *)

(** [grpc.ServerOption], as far as the package uses it. *)
Inductive ServerOption :=
| ForceServerCodec (Name : string)
| UnknownServiceHandler (streamHandler : StreamHandler).

(** [grpc.NewServer(opts...)]: a later option of a kind replaces an earlier
    one. *)
Definition NewServer (opts : list ServerOption) : Server :=
  foldl (λ server opt,
           match opt with
           | ForceServerCodec _ => server
           | UnknownServiceHandler streamHandler =>
               mkServer (services server) (Some streamHandler)
           end)
    (mkServer ∅ None) opts.

Definition DefaultProxyOpt (cc : option ClientConn) : ServerOption :=
  UnknownServiceHandler (TransparentHandler (DefaultDirector cc)).

Definition DefaultProxyServerOpt : ServerOption :=
  ForceServerCodec RawProtoCodec.Name.

Definition NewProxy (dst : option ClientConn) (opts : list ServerOption)
    : Server :=
  let defaultOpts := [DefaultProxyServerOpt; DefaultProxyOpt dst] in
  NewServer (defaultOpts ++ opts).

(** The state of a call when its reconciliation loop starts, provided the
    set-up gets that far: the outbound stream, the two error channels and
    the store. *)
Definition relaying (h : Handler.t) (serverStream : ServerStream) (w : World)
    : option (ClientStream * chan * chan * World) :=
  match MethodFromServerStream serverStream with
  | None => None
  | Some fullMethodName =>
      let '((outgoingCtx, targetConn, err), w1) :=
        Handler.director h (ss_Context serverStream) fullMethodName w in
      match err, targetConn with
      | None, Some targetConn =>
          let '(r, w2) :=
            NewClientStream (WithCancel outgoingCtx).1
              clientStreamDescForProxying targetConn fullMethodName
              DefaultClientCallOpts w1 in
          match r with
          | inl clientStream =>
              let '(inCh, w3) :=
                Handler.ForwardInboundToOutbound h serverStream clientStream w2 in
              let '(outCh, w4) :=
                Handler.ForwardOutboundToInbound h clientStream serverStream w3 in
              Some (clientStream, inCh, outCh, w4)
          | inr _ => None
          end
      | _, _ => None
      end
  end.

(** The store [w] after the running goroutine has made the calls [es]. *)
Definition logged (w : World) (es : list Event) : World :=
  set_log (w_log w ++ ((λ e, (w_cur w, e)) <$> es)) w.

(** The calls logged from the store [w] to the later store [w']. *)
Definition calls_since (w w' : World) : list Event :=
  (drop (length (w_log w)) (w_log w')).*2.

(** The calls that only a returning branch of the loop makes: the explicit
    [clientCancel()] of the inbound branch and the [SetTrailer] of the
    outbound branch. *)
Definition ends_loop (e : Event) : bool :=
  match e with
  | EvCancel | EvServerStream (CallSetTrailer _) => true
  | _ => false
  end.

(** In a list of calls, every message sent on the inbound stream comes after
    a [SendHeader] on it. *)
Definition sends_after_header (calls : list Event) : Prop :=
  ∀ i payload, calls !! i = Some (EvServerStream (CallSendMsg payload)) →
    ∃ j md, j < i ∧ calls !! j = Some (EvServerStream (CallSendHeader md)).

(** A call that receives or forwards a message. *)
Definition relays (e : Event) : Prop :=
  e = EvClientStream CallRecvMsg ∨ ∃ payload, e = EvServerStream (CallSendMsg payload).

(** From [w] to [w'] the running goroutine has made the calls [es], and
    nobody else has made any. *)
Definition extends (w w' : World) (es : list Event) : Prop :=
  w_cur w' = w_cur w ∧
  w_log w' = w_log w ++ ((λ e, (w_cur w, e)) <$> es).





(** The half-close of the outbound stream and the setting of the inbound
    trailer, among the calls of the handler. *)
Definition is_CloseSend (e : Event) : bool :=
  match e with
  | EvClientStream CallCloseSend => true
  | _ => false
  end.

Definition is_SetTrailer (e : Event) : bool :=
  match e with
  | EvServerStream (CallSetTrailer _) => true
  | _ => false
  end.

(** [w'] is a later store than [w0] in which the map [o] and the string
    arrays in [O] are as they were in [w0], and the values of the map [i]
    lie in arrays outside [O]. *)
Definition shielded (w0 : World) (o : loc) (O : gset loc) (i : loc)
    (w' : World) : Prop :=
  w_mds w' !! o = w_mds w0 !! o ∧
  (∀ a, a ∈ O → w_strs w' !! a = w_strs w0 !! a ∧ a ∈ dom (w_strs w0)) ∧
  (∀ k (s : slice), MD_entries w' (Some i) !! k = Some (Some s) →
     s_arr s ∉ O).

(** The handler an option installs for unknown services, if it is one. *)
Definition unknown_of (opt : ServerOption) : option StreamHandler :=
  match opt with
  | UnknownServiceHandler streamHandler => Some streamHandler
  | ForceServerCodec _ => None
  end.

(** ** Stores used in the examples *)

(** A store with one array holding "ping", a frame [1] whose payload is
    that array, and an empty frame [2]. *)
Definition w_ping : World :=
  mkWorld (λ _ n, n) map_to_list id {[1 := [x70; x69; x6e; x67]]}
    {[1 := Some (mkSlice 1 0 4 4); 2 := None]}
    ∅ ∅ (λ _, true) GoHandler [].

(** A store in which the map [1] is the metadata [x-test = ["1"]]. *)
Definition w_meta : World :=
  mkWorld (λ _ n, n) map_to_list id ∅ ∅ {[1 := ["1"]]}
    {[1 := {["x-test" := Some (mkSlice 1 0 1 1)]}]} (λ _, true) GoHandler [].

(** A store in which the map [1] is the metadata [X-Test = ["1"]], with a
    capital in its key, and the map [2] has the two keys [X-Test] and
    [x-test], which differ only in case. *)
Definition w_mixed : World :=
  mkWorld (λ _ n, n) map_to_list id ∅ ∅ {[1 := ["1"]; 2 := ["2"]]}
    {[1 := {["X-Test" := Some (mkSlice 1 0 1 1)]};
      2 := {["X-Test" := Some (mkSlice 1 0 1 1);
             "x-test" := Some (mkSlice 2 0 1 1)]}]}
    (λ _, true) GoHandler [].

(** A store with two frames that hold "ping" and "ping::ok", each in an
    array of its own, and a third array holding "ok". *)
Definition w_pair : World :=
  mkWorld (λ _ n, n) map_to_list id
    {[1 := [x70; x69; x6e; x67];
      2 := [x70; x69; x6e; x67; x3a; x3a; x6f; x6b];
      3 := [x6f; x6b]]}
    {[1 := Some (mkSlice 1 0 4 4); 2 := Some (mkSlice 2 0 8 8)]}
    ∅ ∅ (λ _, true) GoHandler [].

(** The call of the package's test: the caller sends "ping" and closes its
    side; the backend sends its header, answers "ping::ok" and ends the call
    with a trailer. *)
Definition ping : list byte := [x70; x69; x6e; x67].
Definition ping_ok : list byte := [x70; x69; x6e; x67; x3a; x3a; x6f; x6b].

Definition ss_echo : ServerStream :=
  mkServerStream (Some "/acme.demo.v1.DemoService/Echo")
    (mkContext (Some 1) None)
    [RecvData ping; RecvErr io_EOF] None (λ _, None).

Definition cs_echo : ClientStream :=
  mkClientStream [RecvData ping_ok; RecvErr io_EOF]
    ({["x-target-header" := ["1"]]}, None) (λ _, None) None
    {["x-target-trailer" := ["1"]]}.

Definition cc_echo : ClientConn :=
  mkClientConn (λ _, inl cs_echo).

(** A caller that sends "ping" and keeps its side open. *)
Definition ss_open : ServerStream :=
  mkServerStream (Some "/acme.demo.v1.DemoService/Echo")
    (mkContext (Some 1) None) [RecvData ping] None (λ _, None).

(** A caller that closes its side at once. *)
Definition ss_closed : ServerStream :=
  mkServerStream (Some "/acme.demo.v1.DemoService/Echo")
    (mkContext (Some 1) None) [RecvErr io_EOF] None (λ _, None).

(** A backend that ends the call with the status [Unimplemented]. *)
Definition err_unimplemented : error :=
  status.Errorf codes.Unimplemented "method Echo not implemented".

Definition cs_unimplemented : ClientStream :=
  mkClientStream [RecvErr err_unimplemented] (∅, None) (λ _, None) None ∅.

(** A backend that never answers, behind a stream whose [CloseSend] works
    ([cs_silent]) or fails ([cs_broken]). *)
Definition cs_silent : ClientStream :=
  mkClientStream [] (∅, None) (λ _, None) None ∅.

Definition err_closed : error := errors_New "transport is closing".

Definition cs_broken : ClientStream :=
  mkClientStream [] (∅, None) (λ _, None) (Some err_closed) ∅.




(** The handler of a proxy with a fixed backend that opens the stream [cs]
    for every method. *)
Definition proxy_to (cs : ClientStream) : Handler.t :=
  Handler.mk (DefaultDirector (Some (mkClientConn (λ _, inl cs)))).

(** A director that knows no route, as in the package's documentation. *)
Definition no_route : StreamDirector :=
  λ ctx fullMethodName,
    mret (ctx, None,
          Some (status.Errorf codes.Unimplemented
                  ("unknown method: " +:+ fullMethodName))).

(** A server without services and without an unknown-service handler. *)
Definition empty_server : Server := mkServer ∅ None.

(** * Proofs *)

(** ** Slices *)

Section slice_facts.
Context {A : Type} `{!Inhabited A}.
Implicit Types (h : gmap loc (list A)) (s : option slice) (xs : list A).

Lemma slice_read_nil h : slice_read h None = [].
Proof. done. Qed.

Lemma slice_ok_Some h (s0 : slice) :
  slice_ok h (Some s0) →
  s_len s0 ≤ s_cap s0 ∧
  ∃ cells, h !! s_arr s0 = Some cells ∧ s_off s0 + s_cap s0 ≤ length cells.
Proof. simpl. destruct (h !! s_arr s0); [|done]. intros [??]. eauto. Qed.

Lemma slice_read_len0 h s : len s = 0 → slice_read h s = [].
Proof. destruct s as [[a o l c]|]; simpl; [intros ->|]; done. Qed.

Lemma slice_read_length h s : slice_ok h s → length (slice_read h s) = len s.
Proof.
  destruct s as [[a o l c]|]; [|done].
  intros Hok. apply slice_ok_Some in Hok as (Hl & cells & Ha & Hc).
  simpl in *.
  rewrite (lookup_total_correct _ _ _ Ha), length_take, length_drop. lia.
Qed.

Lemma slice_ok_reslice0 h s : slice_ok h s → slice_ok h (reslice0 s).
Proof.
  destruct s as [[a o l c]|]; simpl; [|done].
  destruct (h !! a); [lia|done].
Qed.

Lemma slice_read_reslice0 h s : slice_read h (reslice0 s) = [].
Proof. apply slice_read_len0. by destruct s. Qed.

(** [append] denotes list concatenation, whatever the runtime's growth
    policy and whether or not the slice moves. *)
Lemma slice_read_append g h s xs :
  slice_ok h s →
  slice_read (append g h s xs).1 (append g h s xs).2 = slice_read h s ++ xs.
Proof.
  intros Hok. unfold append. case_decide as Hn.
  - destruct s as [[a o l c]|].
    + apply slice_ok_Some in Hok as (Hl & cells & Ha & Hc). simpl in *.
      unfold array_write.
      rewrite (lookup_total_correct _ _ _ Ha).
      erewrite lookup_total_correct; last by rewrite lookup_alter_eq, Ha.
      rewrite <-(take_drop o (take (o + l) cells)) at 1.
      rewrite take_take, Nat.min_l by lia.
      rewrite <-app_assoc, drop_app_length'; last (rewrite length_take; lia).
      rewrite app_assoc, take_app_length'.
      * by rewrite skipn_firstn_comm, Nat.add_sub'.
      * rewrite length_app, length_drop, length_take. lia.
    + destruct xs; simpl in *; [done|lia].
  - simpl. rewrite lookup_total_insert_eq, drop_0, app_assoc.
    rewrite take_app_length'; [done|].
    rewrite length_app. f_equal.
    destruct s as [[a o l c]|]; [|done].
    apply slice_ok_Some in Hok as (Hl & cells & Ha & Hc). simpl in *.
    rewrite (lookup_total_correct _ _ _ Ha), length_take, length_drop. lia.
Qed.

(** The slice [append] returns is valid in the heap it returns. *)
Lemma slice_ok_append g h s xs :
  slice_ok h s → slice_ok (append g h s xs).1 (append g h s xs).2.
Proof.
  intros Hok. unfold append. case_decide as Hn.
  - destruct s as [[a o l c]|]; [|done].
    apply slice_ok_Some in Hok as (Hl & cells & Ha & Hc). simpl in *.
    unfold array_write. rewrite lookup_alter_eq, Ha. simpl. split; [lia|].
    rewrite !length_app, length_take, length_drop. lia.
  - simpl. rewrite lookup_insert_eq. split; [lia|].
    rewrite !length_app, length_replicate.
    assert (len s ≤ length (slice_read h s)); [|lia].
    by rewrite slice_read_length.
Qed.

(** Where [append] puts its result: in the array of [s], or in an array
    that was not allocated before. *)
Lemma append_arr g h s xs (r : slice) :
  (append g h s xs).2 = Some r →
  (∃ s0 : slice, s = Some s0 ∧ s_arr r = s_arr s0) ∨ s_arr r ∉ dom h.
Proof.
  unfold append. case_decide.
  - destruct s as [s0|]; simpl; [|done]. intros [= <-]. left. eauto.
  - simpl. intros [= <-]. right. apply is_fresh.
Qed.

(** Arrays other than the one [append] writes keep their contents. *)
Lemma append_lookup_ne g h s xs a :
  a ∈ dom h → (∀ s0 : slice, s = Some s0 → s_arr s0 ≠ a) →
  (append g h s xs).1 !! a = h !! a.
Proof.
  intros Ha Hne. unfold append. case_decide.
  - destruct s as [s0|]; simpl; [|done].
    unfold array_write. rewrite lookup_alter_ne; [done|]. by apply Hne.
  - simpl. rewrite lookup_insert_ne; [done|].
    intros <-. by apply (is_fresh (dom h)).
Qed.



Lemma heap_ext_refl h : heap_ext h h.
Proof. by intros a. Qed.

Lemma heap_ext_dom h h' a : heap_ext h h' → a ∈ dom h → a ∈ dom h'.
Proof.
  intros Hext Ha. apply elem_of_dom. rewrite (Hext a Ha). by apply elem_of_dom.
Qed.

Lemma slice_read_ext h h' s :
  heap_ext h h' → slice_ok h s → slice_read h' s = slice_read h s.
Proof.
  intros Hext Hok. destruct s as [s0|]; [|done].
  apply slice_ok_Some in Hok as (_ & cells & Ha & _). simpl.
  assert (h' !! s_arr s0 = Some cells) as Ha'.
  { rewrite Hext; [done|]. by apply elem_of_dom. }
  by rewrite !(lookup_total_correct _ _ cells).
Qed.

Lemma slice_ok_ext h h' s : heap_ext h h' → slice_ok h s → slice_ok h' s.
Proof.
  intros Hext Hok. destruct s as [s0|]; [|done].
  pose proof Hok as Hok'.
  apply slice_ok_Some in Hok as (_ & cells & Ha & _). simpl in *.
  rewrite Hext; [done|]. by apply elem_of_dom.
Qed.

Lemma slice_ok_dom h (s0 : slice) : slice_ok h (Some s0) → s_arr s0 ∈ dom h.
Proof.
  intros (_ & cells & Ha & _)%slice_ok_Some. by apply elem_of_dom.
Qed.

Lemma alloc_ext h xs : heap_ext h (alloc h xs).1.
Proof.
  intros a Ha. simpl. rewrite lookup_insert_ne; [done|].
  intros <-. by apply (is_fresh (dom h)).
Qed.

Lemma alloc_fresh h xs : s_arr (alloc h xs).2 ∉ dom h.
Proof. apply is_fresh. Qed.

Lemma alloc_read h xs : slice_read (alloc h xs).1 (Some (alloc h xs).2) = xs.
Proof. simpl. by rewrite lookup_total_insert_eq, drop_0, firstn_all. Qed.

Lemma alloc_ok h xs : slice_ok (alloc h xs).1 (Some (alloc h xs).2).
Proof. simpl. by rewrite lookup_insert_eq. Qed.

Lemma append_ext g h0 h s xs :
  heap_ext h0 h → (∀ s0 : slice, s = Some s0 → s_arr s0 ∉ dom h0) →
  heap_ext h0 (append g h s xs).1.
Proof.
  intros Hext Hs a Ha. rewrite append_lookup_ne; [by apply Hext| |].
  - by eapply heap_ext_dom.
  - intros s0 -> <-. by eapply Hs.
Qed.

Lemma slice_store_ext h0 h s i x h' :
  heap_ext h0 h → (∀ s0 : slice, s = Some s0 → s_arr s0 ∉ dom h0) →
  slice_store h s i x = Some h' → heap_ext h0 h'.
Proof.
  intros Hext Hs Hst a Ha. destruct s as [s0|]; simpl in *; [|done].
  case_decide; [|done]. injection Hst as <-.
  rewrite lookup_alter_ne; [by apply Hext|].
  intros <-. by eapply Hs.
Qed.

Lemma heap_ext_trans h1 h2 h3 :
  heap_ext h1 h2 → heap_ext h2 h3 → heap_ext h1 h3.
Proof.
  intros H12 H23 a Ha. rewrite H23 by eauto using heap_ext_dom. by apply H12.
Qed.
End slice_facts.

(** ** The raw codec *)

(** What [RawProtoCodec.Unmarshal] does to a frame: no error, the payload
    reads as the input read before the call, and the payload is either nil,
    in the array it was in, or in an array allocated by the call. *)
Lemma Unmarshal_frame w data f :
  frame_ok w f →
  let r := RawProtoCodec.Unmarshal data (AnyFrame f) w in
  r.1 = None ∧
  frame_bytes r.2 f = slice_read (w_bytes w) data ∧
  frame_ok r.2 f ∧
  w_log r.2 = w_log w ∧
  (len data = 0 → w_frames r.2 !! f = Some None) ∧
  (∀ p : slice, w_frames r.2 !! f = Some (Some p) →
     (∃ p0 : slice, w_frames w !! f = Some (Some p0) ∧ s_arr p = s_arr p0) ∨
     s_arr p ∉ dom (w_bytes w)) ∧
  (∀ a, a ∈ dom (w_bytes w) →
     (∀ p0 : slice, w_frames w !! f = Some (Some p0) → s_arr p0 ≠ a) →
     w_bytes r.2 !! a = w_bytes w !! a).
Proof.
  intros Hok. unfold RawProtoCodec.Unmarshal. case_decide as Hlen; simpl.
  - unfold frame_bytes, frame_ok, store_Payload, mbind, M_bind, mret, M_ret.
    simpl. rewrite lookup_insert_eq. simpl.
    rewrite slice_read_len0 by done. by repeat split.
  - unfold frame_bytes, frame_ok, store_Payload, load_Payload, append_bytes,
      mbind, M_bind, mret, M_ret in *. simpl.
    set (p := default None (w_frames w !! f)) in *.
    set (xs := slice_read (w_bytes w) data).
    pose proof (slice_read_append (w_grow w) (w_bytes w) (reslice0 p) xs
                  (slice_ok_reslice0 _ _ Hok)) as Hrd.
    pose proof (slice_ok_append (w_grow w) (w_bytes w) (reslice0 p) xs
                  (slice_ok_reslice0 _ _ Hok)) as Hok'.
    pose proof (append_arr (w_grow w) (w_bytes w) (reslice0 p) xs) as Harr.
    pose proof (append_lookup_ne (w_grow w) (w_bytes w) (reslice0 p) xs) as Hne.
    destruct (append (w_grow w) (w_bytes w) (reslice0 p) xs) as [h' s'].
    simpl in *. rewrite lookup_insert_eq. simpl.
    rewrite slice_read_reslice0 in Hrd.
    repeat split; [done..| |].
    + intros q [= ->]. destruct (Harr q eq_refl) as [(s0 & Hs0 & ->)|]; [|by right].
      left. subst p. destruct (w_frames w !! f) as [[p0|]|]; simplify_eq/=.
      eauto.
    + intros a Ha Hfa. apply Hne; [done|]. intros s0 Hs0.
      subst p. destruct (w_frames w !! f) as [[p0|]|]; simplify_eq/=.
      by apply Hfa.
Qed.

(** [RawProtoCodec.Marshal] hands out the frame's own slice and changes
    nothing. *)
Lemma Marshal_frame w f :
  RawProtoCodec.Marshal (AnyFrame f) w
  = ((default None (w_frames w !! f), None), w).
Proof. done. Qed.

(** C5: for every frame [f], marshaling [f] and unmarshaling the result
    into a frame [g] (a frame of its own or [f] itself) leaves in [g] the
    bytes [f] held; neither call reports an error. *)
Theorem RawProtoCodec_roundtrip (w : World) (f g : loc) :
  frame_ok w g →
  let r1 := RawProtoCodec.Marshal (AnyFrame f) w in
  let r2 := RawProtoCodec.Unmarshal r1.1.1 (AnyFrame g) r1.2 in
  r1.1.2 = None ∧ r2.1 = None ∧ frame_bytes r2.2 g = frame_bytes w f.
Proof.
  intros Hok. rewrite Marshal_frame. cbn [fst snd].
  destruct (Unmarshal_frame w (default None (w_frames w !! f)) g Hok)
    as (Herr & Hrd & _).
  by rewrite Herr, Hrd.
Qed.

(** C6: [RawProtoCodec.Unmarshal] replaces whatever the frame held by
    exactly the input bytes, and an empty or nil input leaves the payload
    nil. *)
Theorem Unmarshal_overwrites (w : World) (data : option slice) (f : loc) :
  frame_ok w f →
  let r := RawProtoCodec.Unmarshal data (AnyFrame f) w in
  r.1 = None ∧
  frame_bytes r.2 f = slice_read (w_bytes w) data ∧
  (len data = 0 → w_frames r.2 !! f = Some None ∧ frame_bytes r.2 f = []).
Proof.
  intros Hok. destruct (Unmarshal_frame w data f Hok) as (? & Hrd & _ & _ & Hnil & _).
  repeat split; [done..|by apply Hnil|].
  rewrite Hrd. by apply slice_read_len0.
Qed.



Lemma RawProtoCodec_roundtrip_witness :
  frame_ok w_ping 1 ∧
  let r1 := RawProtoCodec.Marshal (AnyFrame 1) w_ping in
  let r2 := RawProtoCodec.Unmarshal r1.1.1 (AnyFrame 1) r1.2 in
  r1.1.2 = None ∧ r2.1 = None ∧ frame_bytes r2.2 1 = frame_bytes w_ping 1.
Proof.
  split; [vm_compute; lia|].
  apply (RawProtoCodec_roundtrip w_ping 1 1). vm_compute; lia.
Defined.

Lemma Unmarshal_overwrites_witness :
  frame_ok w_ping 1 ∧
  let r := RawProtoCodec.Unmarshal None (AnyFrame 1) w_ping in
  r.1 = None ∧
  frame_bytes r.2 1 = slice_read (w_bytes w_ping) None ∧
  (len None = 0 → w_frames r.2 !! 1 = Some None ∧ frame_bytes r.2 1 = []).
Proof.
  split; [vm_compute; lia|].
  apply (Unmarshal_overwrites w_ping None 1). vm_compute; lia.
Defined.




(** ** The default director *)

Section director_facts.
Implicit Types (w : World) (kvs : list (string * option slice)).

Lemma range_perm w m : range w m ≡ₚ map_to_list m.
Proof. unfold range. by case_decide. Qed.

Lemma elem_of_range w m k v : (k, v) ∈ range w m ↔ m !! k = Some v.
Proof. rewrite range_perm. apply elem_of_map_to_list. Qed.

Lemma elem_of_range_keys w m k : k ∈ (range w m).*1 ↔ is_Some (m !! k).
Proof.
  rewrite list_elem_of_fmap. split.
  - intros ([k' v] & -> & Hin%elem_of_range). by exists v.
  - intros [v Hv]. exists (k, v). by rewrite elem_of_range.
Qed.

(** The loop of [md.Copy()], over any list of entries: every listed key
    gets a slice of its own, in an array that did not exist before, reading
    as one of the values listed for it does; nothing else changes. *)
Lemma copy_entries_spec kvs out w :
  out ∈ dom (w_mds w) →
  Forall (λ kv, slice_ok (w_strs w) kv.2) kvs →
  let w' := (metadata.copy_entries kvs out w).2 in
  heap_ext (w_strs w) (w_strs w') ∧
  (∀ l, l ≠ out → w_mds w' !! l = w_mds w !! l) ∧
  (∃ m', w_mds w' !! out = Some m' ∧
    (∀ k, k ∉ kvs.*1 → m' !! k = MD_entries w (Some out) !! k) ∧
    (∀ k, k ∈ kvs.*1 → ∃ v (s : slice), (k, v) ∈ kvs ∧
       m' !! k = Some (Some s) ∧ (s_arr s ∉ dom (w_strs w)) ∧
       slice_ok (w_strs w') (Some s) ∧
       slice_read (w_strs w') (Some s) = slice_read (w_strs w) v)).
Proof.
  revert w. induction kvs as [|[k v] kvs IH]; intros w Hout Hok.
  - simpl. split; [apply heap_ext_refl|]. split; [done|].
    apply elem_of_dom in Hout as [m Hm]. exists m.
    unfold MD_entries. simpl. rewrite Hm. simpl.
    split; [done|]. split; [done|]. intros ? ?%elem_of_nil. done.
  - apply Forall_cons in Hok as [Hv Hok]. cbn [fst snd] in Hv.
    set (xs := slice_read (w_strs w) v).
    set (w1 := set_mds (alter <[k := Some (alloc (w_strs w) xs).2]> out (w_mds w))
                 (set_strs (alloc (w_strs w) xs).1 w)).
    assert (metadata.copy_entries ((k, v) :: kvs) out w
            = metadata.copy_entries kvs out w1) as -> by done.
    assert (heap_ext (w_strs w) (w_strs w1)) as Hext1 by apply alloc_ext.
    destruct (IH w1) as (Hext & Hmds & m' & Hm' & Hold & Hnew).
    { simpl. by rewrite dom_alter_L. }
    { eapply Forall_impl; [done|]. intros kv. by apply slice_ok_ext. }
    cbv zeta. split; [by eapply heap_ext_trans|]. split.
    { intros l Hl. rewrite Hmds by done. simpl. by rewrite lookup_alter_ne. }
    exists m'. split; [done|]. split.
    + rewrite fmap_cons. cbn [fst].
      intros k0 [Hk0 Hk0']%not_elem_of_cons. rewrite Hold by done.
      unfold MD_entries. simpl. rewrite lookup_alter_eq.
      destruct (w_mds w !! out); simpl; [|done]. by rewrite lookup_insert_ne.
    + rewrite fmap_cons. cbn [fst]. intros k0 Hk0.
      destruct (decide (k0 ∈ kvs.*1)) as [Hin|Hnin].
      * destruct (Hnew k0 Hin) as (v0 & s0 & Hkv & Hs0 & Hfr & Hsok & Hrd).
        exists v0, s0. split; [by right|]. split; [done|]. split.
        { intros Ha. apply Hfr. by eapply heap_ext_dom. }
        split; [done|]. rewrite Hrd. apply slice_read_ext; [done|].
        rewrite Forall_forall in Hok. by apply (Hok (k0, v0)).
      * apply elem_of_cons in Hk0 as [->|?]; [|done].
        exists v, (alloc (w_strs w) xs).2. split; [by left|].
        rewrite Hold by done.
        assert (MD_entries w1 (Some out) !! k
                = Some (Some (alloc (w_strs w) xs).2)) as ->.
        { unfold MD_entries, w1. cbn [w_mds set_mds mbind option_bind].
          rewrite lookup_alter_eq.
          apply elem_of_dom in Hout as [m ->]. simpl.
          by rewrite lookup_insert_eq. }
        split; [done|]. split; [apply is_fresh|].
        assert (slice_ok (w_strs w1) (Some (alloc (w_strs w) xs).2)) as Hsok
          by apply alloc_ok.
        split; [by eapply slice_ok_ext|].
        transitivity (slice_read (w_strs w1) (Some (alloc (w_strs w) xs).2)).
        { by apply slice_read_ext. }
        apply alloc_read.
Qed.

(** The loop of [metadata.FromIncomingContext] is that of [md.Copy()] over
    the entries with their keys lower-cased. *)
Lemma lower_entries_copy kvs out w :
  metadata.lower_entries kvs out w
  = metadata.copy_entries (prod_map (strings_ToLower w) id <$> kvs) out w.
Proof.
  revert w. induction kvs as [|[k v] kvs IH]; intros w; [done|].
  set (xs := slice_read (w_strs w) v).
  set (w1 := set_mds (alter <[strings_ToLower w k
                               := Some (alloc (w_strs w) xs).2]> out (w_mds w))
               (set_strs (alloc (w_strs w) xs).1 w)).
  assert (metadata.lower_entries ((k, v) :: kvs) out w
          = metadata.lower_entries kvs out w1) as -> by done.
  rewrite fmap_cons.
  assert (metadata.copy_entries
            (prod_map (strings_ToLower w) id (k, v)
             :: (prod_map (strings_ToLower w) id <$> kvs)) out w
          = metadata.copy_entries
              (prod_map (strings_ToLower w1) id <$> kvs) out w1) as -> by done.
  apply IH.
Qed.

Lemma later_refl w : later w w.
Proof. split; [apply heap_ext_refl|done]. Qed.

Lemma MD_entries_ok w md :
  MD_ok w md → map_Forall (λ _ v, slice_ok (w_strs w) v) (MD_entries w md).
Proof.
  unfold MD_entries. destruct md as [l|]; simpl; [|done].
  by destruct (w_mds w !! l).
Qed.

Lemma lower_cased_lower w (m m' : MD) :
  lower_cased w m m' → (∀ k, k ∈ dom m → strings_ToLower w k = k) → m' = m.
Proof.
  intros [Hfrom Hto] Hlow. apply map_eq. intros k.
  destruct (m' !! k) as [vals|] eqn:Hk.
  - destruct (Hfrom k vals Hk) as (k0 & Hk0 & Hm).
    rewrite Hlow in Hk0 by (by apply elem_of_dom). by subst k0.
  - destruct (m !! k) as [vals|] eqn:Hm; [|done].
    assert (k ∈ dom m) as Hin by (by apply elem_of_dom).
    pose proof (Hto k Hin) as Hin'. rewrite Hlow in Hin' by done.
    apply elem_of_dom in Hin' as [? ?]. congruence.
Qed.

(** [metadata.FromIncomingContext]: the map it returns is a new one,
    holding the attached metadata under lower-cased keys. *)
Lemma FromIncomingContext_spec w ctx :
  MD_ok w (ctx_incoming ctx) →
  ∃ md1 b w1, metadata.FromIncomingContext ctx w = ((md1, b), w1) ∧
    MD_ok w1 md1 ∧ later w w1 ∧
    lower_cased w (MD_read w (ctx_incoming ctx)) (MD_read w1 md1).
Proof.
  intros Hok. unfold metadata.FromIncomingContext.
  destruct (ctx_incoming ctx) as [i|] eqn:Hi.
  2:{ exists None, false, w. split; [done|]. split; [done|].
      split; [apply later_refl|]. split; [|done].
      intros k vals Hk. unfold MD_read, MD_entries in Hk. simpl in Hk.
      by rewrite fmap_empty, lookup_empty in Hk. }
  set (o := fresh (dom (w_mds w))).
  set (w0 := set_mds (<[o := ∅]> (w_mds w)) w).
  set (m := MD_entries w (Some i)).
  set (kvs := prod_map (strings_ToLower w) id <$> range w m).
  assert ((out ← metadata.make;
           metadata.lower_entries (range w m) out;;
           mret (Some out, true)) w
          = ((Some o, true), (metadata.copy_entries kvs o w0).2)) as ->.
  { unfold metadata.make, mbind, M_bind, mret, M_ret. fold o w0.
    rewrite lower_entries_copy.
    assert (strings_ToLower w0 = strings_ToLower w) as -> by done. fold kvs.
    by destruct (metadata.copy_entries _ _ _) as [[] ?]. }
  pose proof (MD_entries_ok w (Some i) Hok) as Hm. fold m in Hm.
  destruct (copy_entries_spec kvs o w0)
    as (Hext & Hmds & m' & Hm' & Hold & Hnew).
  { simpl. rewrite dom_insert_L. set_solver. }
  { apply Forall_forall. intros [k v] ([k0 v0] & [= -> ->] & Hin)%list_elem_of_fmap.
    apply elem_of_range in Hin. by apply (Hm k0 v0). }
  cbv zeta in Hext, Hmds, Hm', Hnew.
  set (w1 := (metadata.copy_entries kvs o w0).2) in *.
  assert (MD_entries w0 (Some o) = ∅) as Hw0.
  { unfold MD_entries. simpl. by rewrite lookup_insert_eq. }
  assert (∀ k v', m' !! k = Some v' →
            ∃ k0 v (s : slice), strings_ToLower w k0 = k ∧ m !! k0 = Some v ∧
              v' = Some s ∧ slice_ok (w_strs w1) (Some s) ∧
              slice_read (w_strs w1) (Some s) = slice_read (w_strs w) v)
    as Hfrom.
  { intros k v' Hk. destruct (decide (k ∈ kvs.*1)) as [Hin|Hnin].
    - destruct (Hnew k Hin) as (v & s & Hkv & Hs & _ & Hsok & Hrd).
      apply list_elem_of_fmap in Hkv as ([k0 v0] & [= -> ->] & Hkv).
      apply elem_of_range in Hkv. exists k0, v0, s.
      rewrite Hs in Hk. by simplify_eq.
    - rewrite Hold, Hw0 in Hk by done. by rewrite lookup_empty in Hk. }
  exists (Some o), true, w1. split; [done|]. split; [|split].
  - simpl. rewrite Hm'. intros k v' Hk.
    by destruct (Hfrom k v' Hk) as (_ & _ & s & _ & _ & -> & Hsok & _).
  - split; [done|]. intros l Hl.
    assert (l ≠ o) as Hne.
    { intros ->. by apply (is_fresh (dom (w_mds w))). }
    rewrite Hmds by done. simpl. by rewrite lookup_insert_ne.
  - assert (MD_read w1 (Some o) = slice_read (w_strs w1) <$> m') as ->.
    { unfold MD_read, MD_entries. simpl. by rewrite Hm'. }
    assert (MD_read w (Some i) = slice_read (w_strs w) <$> m) as -> by done.
    split.
    + intros k vals. rewrite lookup_fmap.
      destruct (m' !! k) as [v'|] eqn:Hk; [|done]. simpl. intros [= <-].
      destruct (Hfrom k v' Hk) as (k0 & v & s & Hk0 & Hv & -> & _ & Hrd).
      exists k0. split; [done|]. by rewrite lookup_fmap, Hv, Hrd.
    + intros k0. rewrite !elem_of_dom, !lookup_fmap, !fmap_is_Some.
      intros [v Hv].
      destruct (Hnew (strings_ToLower w k0)) as (? & s & _ & -> & _); [|done].
      apply list_elem_of_fmap. exists (strings_ToLower w k0, v). split; [done|].
      apply list_elem_of_fmap. exists (k0, v). split; [done|].
      by apply elem_of_range.
Qed.

Lemma Copy_spec w md :
  MD_ok w md →
  ∃ o, (metadata.Copy md w).1 = Some o ∧
    MD_read (metadata.Copy md w).2 (Some o) = MD_read w md ∧
    detached w o (metadata.Copy md w).2.
Proof.
  intros Hok. set (o := fresh (dom (w_mds w))).
  set (w1 := set_mds (<[o := ∅]> (w_mds w)) w).
  set (m := MD_entries w md).
  assert (metadata.Copy md w
          = (Some o, (metadata.copy_entries (range w m) o w1).2)) as ->.
  { unfold metadata.Copy, metadata.make, mbind, M_bind, mret, M_ret.
    fold o w1 m. by destruct (metadata.copy_entries _ _ _) as [[] ?]. }
  pose proof (MD_entries_ok w md Hok) as Hm. fold m in Hm.
  destruct (copy_entries_spec (range w m) o w1)
    as (Hext & Hmds & m' & Hm' & Hold & Hnew).
  { simpl. rewrite dom_insert_L. set_solver. }
  { apply Forall_forall. intros [k v] Hkv%elem_of_range. by apply (Hm k v). }
  assert (MD_entries w1 (Some o) = ∅) as Hw1.
  { unfold MD_entries. simpl. by rewrite lookup_insert_eq. }
  assert (∀ k, m !! k = None → m' !! k = None) as Hnone.
  { intros k Hk. rewrite Hold, Hw1; [done|].
    intros [v Hv]%elem_of_range_keys. congruence. }
  assert (∀ k v, m !! k = Some v → ∃ s : slice,
            m' !! k = Some (Some s) ∧ (s_arr s ∉ dom (w_strs w)) ∧
            slice_read (w_strs (metadata.copy_entries (range w m) o w1).2)
              (Some s) = slice_read (w_strs w) v) as Hsome.
  { intros k v Hk. destruct (Hnew k) as (v0 & s & Hkv & Hs & Hfr & _ & Hrd).
    { apply elem_of_range_keys. by exists v. }
    apply elem_of_range in Hkv. exists s. by simplify_eq. }
  cbn [fst snd] in *. exists o. split; [done|]. split.
  - apply map_eq. intros k. unfold MD_read at 1 2. rewrite !lookup_fmap.
    fold m. unfold MD_entries. simpl. rewrite Hm'. simpl.
    destruct (m !! k) as [v|] eqn:Hk.
    + destruct (Hsome k v Hk) as (s & -> & _ & Hrd).
      cbn [fmap option_fmap option_map]. by rewrite Hrd.
    + by rewrite Hnone.
  - split; [apply is_fresh|]. split; [done|]. split.
    + intros l Hl.
      assert (l ≠ o) as Hne.
      { intros Heq. rewrite Heq in Hl. by apply (is_fresh (dom (w_mds w))). }
      rewrite Hmds by done. simpl. by rewrite lookup_insert_ne.
    + intros k s. unfold MD_entries. simpl. rewrite Hm'. simpl. intros Hk.
      destruct (m !! k) as [v|] eqn:Hmk.
      * destruct (Hsome k v Hmk) as (s' & Hs' & Hfr & _). by simplify_eq.
      * rewrite Hnone in Hk; done.
Qed.

Lemma detached_later w w1 o w2 :
  later w w1 → detached w1 o w2 → detached w o w2.
Proof.
  intros [Hext1 Hmds1] (Ho & Hext & Hmds & Harr).
  assert (∀ l, l ∈ dom (w_mds w) → l ∈ dom (w_mds w1)) as Hdom.
  { intros l Hl. apply elem_of_dom. rewrite Hmds1 by done.
    by apply elem_of_dom. }
  split; [by intros ?%Hdom|]. split; [by eapply heap_ext_trans|]. split.
  - intros l Hl. rewrite Hmds by (by apply Hdom). by apply Hmds1.
  - intros k s Hk Ha. apply (Harr k s Hk). by eapply heap_ext_dom.
Qed.

Lemma detached_read w o w' md :
  MD_ok w md → detached w o w' → MD_read w' md = MD_read w md.
Proof.
  intros Hok (_ & Hext & Hmds & _). destruct md as [l|]; [|done].
  unfold MD_read, MD_entries. simpl in *.
  destruct (w_mds w !! l) as [m|] eqn:Hl; [|done].
  rewrite Hmds, Hl by (by apply elem_of_dom). simpl.
  apply map_eq. intros k. rewrite !lookup_fmap.
  destruct (m !! k) as [v|] eqn:Hk; [|done]. simpl. f_equal.
  apply slice_read_ext; [done|]. by apply (Hok k v).
Qed.

Lemma MD_apply_detached w o w' op :
  detached w o w' → detached w o (MD_apply o op w').2.
Proof.
  intros (Ho & Hext & Hmds & Harr).
  assert (∀ l f, l ∈ dom (w_mds w) →
            alter f o (w_mds w') !! l = w_mds w !! l) as Hmds'.
  { intros l f Hl. rewrite lookup_alter_ne by (by intros <-). by apply Hmds. }
  assert (∀ k, ∀ s0 : slice,
            default None (MD_entries w' (Some o) !! k) = Some s0 →
            s_arr s0 ∉ dom (w_strs w)) as Harr'.
  { intros k s0 Hk. apply (Harr k).
    destruct (MD_entries w' (Some o) !! k) as [[?|]|]; by simplify_eq/=. }
  split; [done|]. destruct op as [k vals|k vals|k|k i v]; simpl.
  - split; [|split; [by auto|]].
    { eapply heap_ext_trans; [done|]. apply (alloc_ext (w_strs w') vals). }
    intros k0 s. unfold MD_entries. simpl. rewrite lookup_alter_eq.
    destruct (w_mds w' !! o) as [m|] eqn:Hm; simpl; [|done].
    destruct (decide (k = k0)) as [->|Hne].
    + rewrite lookup_insert_eq. intros [= <-]. simpl.
      intros Ha. apply (is_fresh (dom (w_strs w'))). by eapply heap_ext_dom.
    + rewrite lookup_insert_ne by done. intros Hk0. apply (Harr k0).
      unfold MD_entries. simpl. by rewrite Hm.
  - pose proof (append_ext (w_grow w') (w_strs w) (w_strs w')
      (default None (MD_entries w' (Some o) !! k)) vals Hext (Harr' k)) as Hext'.
    pose proof (append_arr (w_grow w') (w_strs w')
      (default None (MD_entries w' (Some o) !! k)) vals) as Hwhere.
    destruct (append _ _ _ _) as [h s']. simpl in *.
    split; [done|]. split; [by auto|].
    intros k0 s. unfold MD_entries. simpl. rewrite lookup_alter_eq.
    destruct (w_mds w' !! o) as [m|] eqn:Hm; simpl; [|done].
    destruct (decide (k = k0)) as [->|Hne].
    + rewrite lookup_insert_eq. intros [= ->].
      destruct (Hwhere s eq_refl) as [(s0 & Hs0 & ->)|Hfr].
      * by apply (Harr' k0).
      * intros Ha. apply Hfr. by eapply heap_ext_dom.
    + rewrite lookup_insert_ne by done. intros Hk0. apply (Harr k0).
      unfold MD_entries. simpl. by rewrite Hm.
  - split; [done|]. split; [by auto|].
    intros k0 s. unfold MD_entries. simpl. rewrite lookup_alter_eq.
    destruct (w_mds w' !! o) as [m|] eqn:Hm; simpl; [|done].
    intros Hk0. apply (Harr k0). unfold MD_entries. simpl. rewrite Hm. simpl.
    by apply lookup_delete_Some in Hk0 as [_ ?].
  - destruct (slice_store _ _ _ _) as [h|] eqn:Hst; simpl.
    + split; [|split; [exact Hmds|exact Harr]].
      eapply slice_store_ext; [exact Hext|apply (Harr' k)|exact Hst].
    + split; [exact Hext|]. split; [exact Hmds|exact Harr].
Qed.

Lemma MD_apply_all_detached w o w' ops :
  detached w o w' → detached w o (MD_apply_all o ops w').2.
Proof.
  revert w'. induction ops as [|op ops IH]; intros w' Hdet; [done|].
  simpl. unfold mbind, M_bind.
  pose proof (MD_apply_detached w o w' op Hdet) as Hdet'.
  destruct (MD_apply o op w') as [[] w1]. by apply IH.
Qed.
Lemma copy_entries_alloc (kvs : list (string * option slice)) (out : loc)
    (w : World) :
  out ∈ dom (w_mds w) →
  (∀ k (s : slice), MD_entries w (Some out) !! k = Some (Some s) →
     s_arr s ∈ dom (w_strs w)) →
  ∀ k (s : slice),
    MD_entries (metadata.copy_entries kvs out w).2 (Some out) !! k
    = Some (Some s) →
    s_arr s ∈ dom (w_strs (metadata.copy_entries kvs out w).2).
Proof.
  revert w. induction kvs as [|[k0 v] kvs IH]; intros w Hout Hall; [done|].
  set (xs := slice_read (w_strs w) v).
  set (w1 := set_mds (alter <[k0 := Some (alloc (w_strs w) xs).2]> out (w_mds w))
               (set_strs (alloc (w_strs w) xs).1 w)).
  assert (metadata.copy_entries ((k0, v) :: kvs) out w
          = metadata.copy_entries kvs out w1) as -> by done.
  apply IH.
  { simpl. by rewrite dom_alter_L. }
  intros k s. unfold MD_entries, w1. cbn [w_mds set_mds mbind option_bind].
  rewrite lookup_alter_eq. apply elem_of_dom in Hout as [m Hm].
  pose proof (Hall k s) as Hk. unfold MD_entries in Hk. simpl in Hk.
  rewrite Hm in Hk |- *. simpl. rewrite dom_insert_L.
  destruct (decide (k0 = k)) as [->|Hne].
  - rewrite lookup_insert_eq. intros [= <-]. set_solver.
  - rewrite lookup_insert_ne by done. intros Hs. apply Hk in Hs. set_solver.
Qed.

Lemma Copy_alloc (w : World) (md : option loc) (o : loc) :
  (metadata.Copy md w).1 = Some o →
  ∀ k (s : slice),
    MD_entries (metadata.Copy md w).2 (Some o) !! k = Some (Some s) →
    s_arr s ∈ dom (w_strs (metadata.Copy md w).2).
Proof.
  set (o' := fresh (dom (w_mds w))).
  set (w1 := set_mds (<[o' := ∅]> (w_mds w)) w).
  set (m := MD_entries w md).
  assert (metadata.Copy md w
          = (Some o', (metadata.copy_entries (range w m) o' w1).2)) as ->.
  { unfold metadata.Copy, metadata.make, mbind, M_bind, mret, M_ret.
    fold o' w1 m. by destruct (metadata.copy_entries _ _ _) as [[] ?]. }
  cbn [fst snd]. intros [= <-]. apply copy_entries_alloc.
  - simpl. rewrite dom_insert_L. set_solver.
  - intros k s. unfold MD_entries. simpl. by rewrite lookup_insert_eq.
Qed.

(** The default director as a whole: the outgoing context carries a new map
    [o], detached from the store of the call, that holds the incoming
    metadata under lower-cased keys in arrays of the resulting store. *)
Lemma DefaultDirector_spec (cc : option ClientConn) (ctx : Context)
    (fullMethodName : string) (w : World) :
  MD_ok w (ctx_incoming ctx) →
  ∃ o w2,
    DefaultDirector cc ctx fullMethodName w
    = ((mkContext (ctx_incoming ctx) (Some o), cc, None), w2) ∧
    detached w o w2 ∧
    lower_cased w (MD_read w (ctx_incoming ctx)) (MD_read w2 (Some o)) ∧
    (∀ k (s : slice), MD_entries w2 (Some o) !! k = Some (Some s) →
       s_arr s ∈ dom (w_strs w2)).
Proof.
  intros Hok.
  destruct (FromIncomingContext_spec w ctx Hok)
    as (md1 & b & w1 & HF & Hok1 & Hlater & Hlow).
  destruct (Copy_spec w1 md1 Hok1) as (o & Ho & Hrd & Hdet).
  pose proof (Copy_alloc w1 md1 o Ho) as Halloc.
  exists o, (metadata.Copy md1 w1).2. split.
  { unfold DefaultDirector, metadata.NewOutgoingContext, mbind, M_bind, mret,
      M_ret. rewrite HF.
    destruct (metadata.Copy md1 w1) as [md' w2]. simpl in Ho. by subst md'. }
  split; [by eapply detached_later|]. split; [by rewrite Hrd|done].
Qed.
End director_facts.

(** C7, as amended: the default director returns the connection it was made
    with and no error; the outgoing context carries, under the outgoing key,
    a new metadata map that holds the incoming metadata under lower-cased
    keys, as [metadata.FromIncomingContext] hands it out: it reads as the
    incoming metadata does when the incoming keys are lower-case already;
    and whatever is done to that map afterwards, the incoming metadata reads
    as before. *)
Theorem DefaultDirector_copies_metadata (cc : option ClientConn)
    (ctx : Context) (fullMethodName : string) (w : World) :
  MD_ok w (ctx_incoming ctx) →
  let r := DefaultDirector cc ctx fullMethodName w in
  let outgoingCtx := r.1.1.1 in
  let incoming := MD_read w (ctx_incoming ctx) in
  r.1.1.2 = cc ∧ r.1.2 = None ∧
  ctx_incoming outgoingCtx = ctx_incoming ctx ∧
  lower_cased w incoming (MD_read r.2 (ctx_outgoing outgoingCtx)) ∧
  ((∀ k, k ∈ dom incoming → strings_ToLower w k = k) →
   MD_read r.2 (ctx_outgoing outgoingCtx) = incoming) ∧
  ∃ o, ctx_outgoing outgoingCtx = Some o ∧
    (o ∉ dom (w_mds w)) ∧
    ∀ ops, MD_read (MD_apply_all o ops r.2).2 (ctx_incoming ctx) = incoming.
Proof.
  intros Hok.
  destruct (DefaultDirector_spec cc ctx fullMethodName w Hok)
    as (o & w2 & -> & Hdet & Hlow & _).
  cbn [fst snd ctx_incoming ctx_outgoing].
  split; [done|]. split; [done|]. split; [done|]. split; [done|].
  split; [by apply lower_cased_lower|].
  exists o. split; [done|]. split; [apply Hdet|].
  intros ops. eapply detached_read; [done|]. by apply MD_apply_all_detached.
Qed.

Lemma DefaultDirector_copies_metadata_witness :
  MD_ok w_meta (Some 1) ∧
  let r := DefaultDirector None (mkContext (Some 1) None) "/acme.demo.v1.DemoService/Echo" w_meta in
  MD_read r.2 (ctx_outgoing r.1.1.1) = {["x-test" := ["1"]]} ∧
  MD_read (MD_apply_all 3 [MDstore "x-test" 0 "2"] r.2).2 (ctx_outgoing r.1.1.1)
    = {["x-test" := ["2"]]} ∧
  MD_read (MD_apply_all 3 [MDstore "x-test" 0 "2"] r.2).2 (Some 1)
    = {["x-test" := ["1"]]}.
Proof.
  assert (MD_ok w_meta (Some 1)) as Hok by compute_done.
  split; [exact Hok|].
  destruct (DefaultDirector_copies_metadata None (mkContext (Some 1) None)
              "/acme.demo.v1.DemoService/Echo" w_meta Hok)
    as (_ & _ & _ & _ & Hrd & o & Ho & _ & Hind).
  cbv zeta. split.
  { rewrite Hrd; [by vm_compute|].
    intros k Hk. change (k ∈ dom (MD_read w_meta (Some 1))) in Hk.
    assert (MD_read w_meta (Some 1) = {["x-test" := ["1"]]}) as Hmeta
      by (by vm_compute).
    rewrite Hmeta, dom_singleton_L in Hk.
    apply elem_of_singleton in Hk as ->. by vm_compute. }
  split; [by vm_compute|].
  assert (o = 3) as -> by (by vm_compute in Ho; injection Ho).
  transitivity (MD_read w_meta (Some 1));
    [exact (Hind [MDstore "x-test" 0 "2"])|by vm_compute].
Defined.

(** C7 as stated fails for incoming metadata whose keys are not lower-case:
    [metadata.FromIncomingContext] lower-cases them, so that the outgoing
    metadata has the key [x-test] where the incoming has [X-Test], and of
    the two incoming keys [X-Test] and [x-test] one entry is left. *)
Lemma DefaultDirector_lowercases_keys :
  let r1 := DefaultDirector None (mkContext (Some 1) None)
              "/acme.demo.v1.DemoService/Echo" w_mixed in
  let r2 := DefaultDirector None (mkContext (Some 2) None)
              "/acme.demo.v1.DemoService/Echo" w_mixed in
  MD_read w_mixed (Some 1) = {["X-Test" := ["1"]]} ∧
  MD_read r1.2 (ctx_outgoing r1.1.1.1) = {["x-test" := ["1"]]} ∧
  size (MD_read w_mixed (Some 2)) = 2 ∧
  size (MD_read r2.2 (ctx_outgoing r2.1.1.1)) = 1.
Proof. by vm_compute. Qed.

(** ** The handler *)

Section handler_facts.
Implicit Types (w : World) (h : Handler.t) (cs : ClientStream)
  (ss : ServerStream) (e : error).

Lemma logged_nil w : logged w [] = w.
Proof. unfold logged, set_log. simpl. rewrite app_nil_r. by destruct w. Qed.

Lemma logged_app w es1 es2 : logged (logged w es1) es2 = logged w (es1 ++ es2).
Proof.
  unfold logged, set_log. simpl. by rewrite fmap_app, app_assoc.
Qed.

Lemma emit_logged ev w : emit ev w = (tt, logged w [ev]).
Proof. done. Qed.

(** From the start of the reconciliation loop on, the handler is its loop
    under the deferred [clientCancel]. *)
Lemma Handler_relaying h srv ss w cs inCh outCh w' :
  relaying h ss w = Some (cs, inCh, outCh, w') →
  Handler.Handler h srv ss w
  = Handler.defer (emit EvCancel)
      (Handler.reconcile 2 0 cs ss (emit EvCancel) inCh outCh) w'.
Proof.
  unfold relaying, Handler.Handler, Handler.defer, WithCancel, mbind, M_bind.
  cbn [fst snd].
  destruct (MethodFromServerStream ss) as [name|]; [|done].
  destruct (Handler.director h (ss_Context ss) name w)
    as [[[octx conn] [err|]] w1]; [done|].
  destruct conn as [cc|]; [|done].
  destruct (NewClientStream _ _ _ _ _ w1) as [[cs0|err] w2]; [|done].
  destruct (Handler.ForwardInboundToOutbound h ss cs0 w2) as [c1 w3].
  destruct (Handler.ForwardOutboundToInbound h cs0 ss w3) as [c2 w4].
  by intros [= -> -> -> ->].
Qed.

Lemma defer_cancel (body : M Outcome) w :
  Handler.defer (emit EvCancel) body w
  = match body w with
    | (Return err, w') => (Return err, logged w' [EvCancel])
    | (Hang, w') => (Hang, w')
    end.
Proof.
  unfold Handler.defer, mbind, M_bind. by destruct (body w) as [[err|] w'].
Qed.

(** The four ways through one iteration of the loop. *)
Lemma reconcile_blocks n i cs ss cancel c1 c2 w c1' c2' :
  select (w_sched w i) c1 c2 = (Blocks, c1', c2') →
  Handler.reconcile (S n) i cs ss cancel c1 c2 w = (Hang, w).
Proof. simpl. by intros ->. Qed.

Lemma reconcile_second n i cs ss cancel c1 c2 w e c1' c2' :
  select (w_sched w i) c1 c2 = (FromSecond e, c1', c2') →
  Handler.reconcile (S n) i cs ss cancel c1 c2 w
  = (Return (if decide (e = io_EOF) then None else Some e),
     logged w [EvClientStream CallTrailer;
               EvServerStream (CallSetTrailer (cs_Trailer cs))]).
Proof.
  simpl. intros ->.
  unfold logged, mbind, M_bind, Trailer, SetTrailer, emit, set_log. simpl.
  rewrite <-app_assoc.
  by destruct (decide (e = io_EOF)), (decide (e ≠ io_EOF)).
Qed.

Lemma reconcile_first_error n i cs ss cancel c1 c2 w e c1' c2' :
  select (w_sched w i) c1 c2 = (FromFirst e, c1', c2') → e ≠ io_EOF →
  Handler.reconcile (S n) i cs ss cancel c1 c2 w
  = (Return (Some (status.Errorf codes.Internal
       ("failed proxying inbound to outbound: " +:+ Error e))),
     (cancel w).2).
Proof.
  simpl. intros -> He. rewrite decide_False by done.
  unfold mbind, M_bind. by destruct (cancel w).
Qed.

Lemma reconcile_first_EOF n i cs ss cancel c1 c2 w c1' c2' :
  select (w_sched w i) c1 c2 = (FromFirst io_EOF, c1', c2') →
  Handler.reconcile (S n) i cs ss cancel c1 c2 w
  = match cs_CloseSend cs with
    | Some cCloseErr =>
        (Return (Some cCloseErr), logged w [EvClientStream CallCloseSend])
    | None =>
        Handler.reconcile n (S i) cs ss cancel c1' c2'
          (logged w [EvClientStream CallCloseSend])
    end.
Proof.
  simpl. intros ->. rewrite decide_True by done.
  unfold mbind, M_bind, CloseSend. simpl. by destruct (cs_CloseSend cs).
Qed.

(** A forwarding goroutine sends on its channel at most once. *)
Lemma ForwardInboundToOutbound_loop_once pending n src dst f w :
  length (Handler.ForwardInboundToOutbound_loop pending n src dst f w).1 ≤ 1.
Proof.
  revert n w. induction pending as [|r pending IH]; intros n w;
    cbn [Handler.ForwardInboundToOutbound_loop]; [simpl; lia|].
  unfold mbind, M_bind.
  destruct (RecvMsg _ r f w) as [[e|] w1]; [simpl; lia|].
  destruct (SendMsg _ _ f w1) as [[e|] w2]; [simpl; lia|]. apply IH.
Qed.

Lemma ForwardOutboundToInbound_loop_once pending i src dst f w :
  length (Handler.ForwardOutboundToInbound_loop pending i src dst f w).1 ≤ 1.
Proof.
  revert i w. induction pending as [|r pending IH]; intros i w;
    cbn [Handler.ForwardOutboundToInbound_loop]; [simpl; lia|].
  unfold mbind at 1, M_bind at 1.
  destruct (RecvMsg _ r f w) as [[e|] w1]; [simpl; lia|].
  unfold mbind at 1, M_bind at 1.
  match goal with |- context [let '(_, _) := ?m w1 in _] =>
    destruct (m w1) as [[e|] w2] end; [simpl; lia|].
  unfold mbind, M_bind.
  destruct (SendMsg _ _ f w2) as [[e|] w3]; [simpl; lia|]. apply IH.
Qed.

Lemma relaying_once h ss w cs inCh outCh w' :
  relaying h ss w = Some (cs, inCh, outCh, w') →
  length inCh ≤ 1 ∧ length outCh ≤ 1.
Proof.
  unfold relaying.
  destruct (MethodFromServerStream ss) as [name|]; [|done].
  destruct (Handler.director h (ss_Context ss) name w)
    as [[[octx conn] [err|]] w1]; [done|].
  destruct conn as [cc|]; [|done].
  destruct (NewClientStream _ _ _ _ _ w1) as [[cs0|err] w2]; [|done].
  unfold Handler.ForwardInboundToOutbound, Handler.ForwardOutboundToInbound,
    go, mbind, M_bind.
  destruct (new_RawProtoFrame (set_cur _ w2)) as [f1 w3].
  pose proof (ForwardInboundToOutbound_loop_once (ss_RecvMsg ss) 0 ss cs0 f1 w3).
  destruct (Handler.ForwardInboundToOutbound_loop _ _ _ _ _ w3) as [c1 w4].
  destruct (new_RawProtoFrame (set_cur _ _)) as [f2 w5].
  pose proof (ForwardOutboundToInbound_loop_once (cs_RecvMsg cs0) 0 cs0 ss f2 w5).
  destruct (Handler.ForwardOutboundToInbound_loop _ _ _ _ _ w5) as [c2 w6].
  by intros [= -> -> -> <-].
Qed.

Lemma select_first_once first c1 c2 e c1' c2' :
  select first c1 c2 = (FromFirst e, c1', c2') →
  length c1 ≤ 1 → c1 = [e] ∧ c1' = [] ∧ c2' = c2.
Proof.
  destruct c1 as [|e1 [|??]], c2 as [|e2 c2], first; simpl;
    intros ??; by simplify_eq/=; try lia.
Qed.
End handler_facts.

(** C1: when the task forwarding from the outbound to the inbound stream is
    the first to report, the handler reads the trailer of the outbound
    stream and sets it on the inbound stream, whatever the report says; it
    then returns the reported error itself, or nil if the report is
    [io.EOF].  Its only other call is the deferred [clientCancel]. *)
Theorem Handler_outbound_reports_first (h : Handler.t) (srv : any)
    (serverStream : ServerStream) (w : World) (clientStream : ClientStream)
    (inCh outCh : chan) (w' : World) (e : error) (inCh' outCh' : chan) :
  relaying h serverStream w = Some (clientStream, inCh, outCh, w') →
  select (w_sched w' 0) inCh outCh = (FromSecond e, inCh', outCh') →
  Handler.Handler h srv serverStream w
  = (Return (if decide (e = io_EOF) then None else Some e),
     logged w' [EvClientStream CallTrailer;
                EvServerStream (CallSetTrailer (cs_Trailer clientStream));
                EvCancel]).
Proof.
  intros Hrel Hsel. rewrite (Handler_relaying _ _ _ _ _ _ _ _ Hrel).
  rewrite defer_cancel, (reconcile_second _ _ _ _ _ _ _ _ _ _ _ Hsel).
  by rewrite logged_app.
Qed.

(** C4: if the director returns an error, the handler returns that error;
    if it returns no error and a nil connection, the handler returns a status
    error with code [Unavailable].  In both cases the store is left as the
    director left it: the handler has opened no outbound stream. *)
Theorem Handler_director_fails (h : Handler.t) (srv : any)
    (serverStream : ServerStream) (w : World) (fullMethodName : string)
    (outgoingCtx : Context) (targetConn : option ClientConn)
    (err : option error) (w1 : World) :
  MethodFromServerStream serverStream = Some fullMethodName →
  Handler.director h (ss_Context serverStream) fullMethodName w
  = ((outgoingCtx, targetConn, err), w1) →
  let r := Handler.Handler h srv serverStream w in
  (∀ e, err = Some e → r = (Return (Some e), w1)) ∧
  (err = None → targetConn = None →
   r = (Return (Some (status.Errorf codes.Unavailable
                        "target connection is nil")), w1) ∧
   status.Code (Some (status.Errorf codes.Unavailable
                        "target connection is nil")) = codes.Unavailable).
Proof.
  intros Hm Hd. unfold Handler.Handler. rewrite Hm.
  unfold mbind, M_bind. rewrite Hd. cbv zeta. split.
  - by intros e ->.
  - by intros -> ->.
Qed.


(** C2, as amended: when the task forwarding from the inbound to the
    outbound stream is the first to report, then on [io.EOF] the handler
    half-closes the outbound stream; if that succeeds it goes on waiting for
    the other task, so that the outcome of the call is the outcome of that
    task (and there is none while that task does not report), and if it
    fails the handler returns that failure; on any other error the handler
    cancels the outbound context and returns an [Internal] status error
    naming the inbound failure, without waiting. *)
Theorem Handler_inbound_reports_first (h : Handler.t) (srv : any)
    (serverStream : ServerStream) (w : World) (clientStream : ClientStream)
    (inCh outCh : chan) (w' : World) (e : error) (inCh' outCh' : chan) :
  relaying h serverStream w = Some (clientStream, inCh, outCh, w') →
  select (w_sched w' 0) inCh outCh = (FromFirst e, inCh', outCh') →
  let r := Handler.Handler h srv serverStream w in
  if decide (e = io_EOF) then
    match cs_CloseSend clientStream with
    | Some cCloseErr =>
        r = (Return (Some cCloseErr),
             logged w' [EvClientStream CallCloseSend; EvCancel])
    | None =>
        match outCh with
        | [] => r = (Hang, logged w' [EvClientStream CallCloseSend])
        | e2 :: _ =>
            r = (Return (if decide (e2 = io_EOF) then None else Some e2),
                 logged w' [EvClientStream CallCloseSend;
                            EvClientStream CallTrailer;
                            EvServerStream
                              (CallSetTrailer (cs_Trailer clientStream));
                            EvCancel])
        end
    end
  else
    r = (Return (Some (status.Errorf codes.Internal
           ("failed proxying inbound to outbound: " +:+ Error e))),
         logged w' [EvCancel; EvCancel]).
Proof.
  intros Hrel Hsel. cbv zeta. rewrite (Handler_relaying _ _ _ _ _ _ _ _ Hrel).
  rewrite defer_cancel.
  destruct (relaying_once _ _ _ _ _ _ _ Hrel) as [Hin _].
  destruct (select_first_once _ _ _ _ _ _ Hsel Hin) as (-> & -> & ->).
  destruct (decide (e = io_EOF)) as [->|He].
  - rewrite (reconcile_first_EOF _ _ _ _ _ _ _ _ _ _ Hsel).
    destruct (cs_CloseSend clientStream) as [cCloseErr|].
    { by rewrite logged_app. }
    destruct outCh as [|e2 outCh].
    + by rewrite (reconcile_blocks _ _ _ _ _ [] [] _ [] []).
    + rewrite (reconcile_second _ _ _ _ _ [] (e2 :: outCh) _ e2 [] outCh) by done.
      by rewrite !logged_app.
  - rewrite (reconcile_first_error _ _ _ _ _ _ _ _ _ _ _ Hsel He).
    rewrite emit_logged. cbn [snd]. by rewrite logged_app.
Qed.

Lemma calls_since_logged (w : World) (es : list Event) :
  calls_since w (logged w es) = es.
Proof.
  unfold calls_since, logged. simpl. rewrite drop_app_length.
  rewrite <-list_fmap_compose. by rewrite list_fmap_id.
Qed.

(** Every way through the loop of the handler, by what the two [select]s
    find: the outcome and the calls made. *)
Lemma reconcile_cases (cs : ClientStream) (ss : ServerStream) (inCh outCh : chan)
    (w : World) :
  ∃ out es,
    Handler.reconcile 2 0 cs ss (emit EvCancel) inCh outCh w
    = (out, logged w es) ∧
    length (filter ends_loop es) ≤ 1 ∧
    (out = Hang ↔
     outCh = [] ∧ (inCh = [] ∨ (inCh = [io_EOF] ∧ cs_CloseSend cs = None))).
Proof.
  destruct (select (w_sched w 0) inCh outCh) as [[[e|e|] c1] c2] eqn:Hsel.
  - destruct (decide (e = io_EOF)) as [->|He].
    + rewrite (reconcile_first_EOF _ _ _ _ _ _ _ _ _ _ Hsel).
      destruct (cs_CloseSend cs) as [ce|] eqn:Hclose.
      { eexists _, _. split; [done|]. split; [simpl; lia|].
        split; [done|]. intros [_ [->|[_ ?]]]; [|done].
        by destruct outCh, (w_sched w 0). }
      set (w1 := logged w [EvClientStream CallCloseSend]).
      destruct (select (w_sched w1 1) c1 c2) as [[[e'|e'|] c1'] c2'] eqn:Hsel'.
      * destruct (decide (e' = io_EOF)) as [->|He'].
        { rewrite (reconcile_first_EOF _ _ _ _ _ _ _ _ _ _ Hsel'), Hclose.
          simpl. unfold w1. rewrite logged_app.
          eexists _, _. split; [done|]. split; [simpl; lia|].
          split; [done|]. intros [-> [->|[-> _]]]; [done|].
          simpl in Hsel. by simplify_eq/=. }
        rewrite (reconcile_first_error _ _ _ _ _ _ _ _ _ _ _ Hsel' He').
        rewrite emit_logged. cbn [snd]. unfold w1. rewrite logged_app.
        eexists _, _. split; [done|]. split; [simpl; lia|].
        split; [done|]. intros [-> [->|[-> _]]]; [done|].
        simpl in Hsel. by simplify_eq/=.
      * rewrite (reconcile_second _ _ _ _ _ _ _ _ _ _ _ Hsel').
        unfold w1. rewrite logged_app.
        eexists _, _. split; [done|]. split; [simpl; lia|].
        split; [by destruct (decide _)|]. intros [-> [->|[-> _]]]; [done|].
        simpl in Hsel. by simplify_eq/=.
      * rewrite (reconcile_blocks _ _ _ _ _ _ _ _ _ _ Hsel').
        eexists _, _. split; [done|]. split; [simpl; lia|].
        split; [intros _|done]. subst w1. cbn [w_sched logged set_log] in Hsel'.
        destruct inCh as [|e1 [|??]], outCh as [|e2 ?], (w_sched w 0),
          (w_sched w 1); simplify_eq/=; (split; [done|by right]).
    + rewrite (reconcile_first_error _ _ _ _ _ _ _ _ _ _ _ Hsel He).
      rewrite emit_logged. cbn [snd].
      eexists _, _. split; [done|]. split; [simpl; lia|].
      split; [done|]. intros [-> [->|[-> _]]]; [done|].
      simpl in Hsel. by simplify_eq/=.
  - rewrite (reconcile_second _ _ _ _ _ _ _ _ _ _ _ Hsel).
    eexists _, _. split; [done|]. split; [simpl; lia|].
    split; [by destruct (decide _)|]. intros [-> [->|[-> _]]]; [done|].
    simpl in Hsel. by simplify_eq/=.
  - rewrite (reconcile_blocks _ _ _ _ _ _ _ _ _ _ Hsel).
    exists Hang, []. rewrite logged_nil. split; [done|]. split; [simpl; lia|].
    split; [intros _|done].
    destruct inCh, outCh, (w_sched w 0); simplify_eq/=; auto.
Qed.

(** C9, as amended: the loop of the handler waits for the tasks without a
    time limit.  It hangs exactly when no task ever reports, or when the
    inbound task reports [io.EOF], the half-close succeeds and the outbound
    task never reports; in every other case it returns.  A call that ends
    the loop (the [SetTrailer] of the outbound branch, the [clientCancel] of
    the inbound branch) is made at most once.  If both iterations pass
    without a return, the handler returns the [Internal] status error
    "gRPC proxying should never reach this stage.". *)
Theorem reconcile_returns_or_waits (clientStream : ClientStream)
    (serverStream : ServerStream) (inCh outCh : chan) (w : World) :
  let r := Handler.reconcile 2 0 clientStream serverStream (emit EvCancel)
             inCh outCh w in
  (r.1 = Hang ↔
   outCh = [] ∧
   (inCh = [] ∨ (inCh = [io_EOF] ∧ cs_CloseSend clientStream = None))) ∧
  (r.1 ≠ Hang → ∃ err, r.1 = Return err) ∧
  length (filter ends_loop (calls_since w r.2)) ≤ 1 ∧
  (∀ inCh1 outCh1 inCh2 outCh2,
     select (w_sched w 0) inCh outCh = (FromFirst io_EOF, inCh1, outCh1) →
     select (w_sched w 1) inCh1 outCh1 = (FromFirst io_EOF, inCh2, outCh2) →
     cs_CloseSend clientStream = None →
     r = (Return (Some (status.Errorf codes.Internal
                          "gRPC proxying should never reach this stage.")),
          logged w [EvClientStream CallCloseSend;
                    EvClientStream CallCloseSend])).
Proof.
  cbv zeta.
  destruct (reconcile_cases clientStream serverStream inCh outCh w)
    as (out & es & Hr & Hexit & Hhang).
  split; [by rewrite Hr|]. split.
  { destruct (Handler.reconcile _ _ _ _ _ _ _ _) as [[err|] ?]; [eauto|done]. }
  split; [rewrite Hr; cbn [snd]; by rewrite calls_since_logged|].
  intros inCh1 outCh1 inCh2 outCh2 Hsel0 Hsel1 Hclose.
  rewrite (reconcile_first_EOF _ _ _ _ _ _ _ _ _ _ Hsel0), Hclose.
  rewrite (reconcile_first_EOF _ _ _ _ _ _ _ (logged w _) _ _ Hsel1), Hclose.
  simpl. by rewrite logged_app.
Qed.

(** ** The forwarding tasks *)

Section forward_facts.
Implicit Types (w : World) (es : list Event).

Lemma extends_refl w : extends w w [].
Proof. split; [done|]. simpl. by rewrite app_nil_r. Qed.

Lemma extends_trans w1 w2 w3 es1 es2 :
  extends w1 w2 es1 → extends w2 w3 es2 → extends w1 w3 (es1 ++ es2).
Proof.
  intros [Hc1 Hl1] [Hc2 Hl2]. split; [congruence|].
  by rewrite Hl2, Hl1, Hc1, fmap_app, app_assoc.
Qed.

Lemma extends_logged w es : extends w (logged w es) es.
Proof. done. Qed.

Lemma extends_calls_since w w' es : extends w w' es → calls_since w w' = es.
Proof.
  intros [_ Hl]. unfold calls_since. rewrite Hl, drop_app_length.
  rewrite <-list_fmap_compose. by rewrite list_fmap_id.
Qed.

Lemma Unmarshal_frame_cur w data f :
  w_cur (RawProtoCodec.Unmarshal data (AnyFrame f) w).2 = w_cur w.
Proof.
  unfold RawProtoCodec.Unmarshal, append_bytes, mbind, M_bind.
  destruct (decide (len data = 0)); [done|]. simpl.
  by destruct (append _ _ _ _).
Qed.

Lemma RecvMsg_err ev e f w :
  RecvMsg ev (RecvErr e) f w = (Some e, logged w [ev CallRecvMsg]).
Proof. done. Qed.

(** Receiving a message leaves its bytes in the frame. *)
Lemma RecvMsg_data ev data f w :
  frame_ok w f →
  ∃ w', RecvMsg ev (RecvData data) f w = (None, w') ∧
    extends w w' [ev CallRecvMsg] ∧ frame_ok w' f ∧ frame_bytes w' f = data.
Proof.
  intros Hok.
  set (w0 := logged w [ev CallRecvMsg]).
  set (buf := (alloc (w_bytes w0) data).2).
  set (w1 := set_bytes (alloc (w_bytes w0) data).1 w0).
  assert (RecvMsg ev (RecvData data) f w
          = RawProtoCodec.Unmarshal (Some buf) (AnyFrame f) w1) as -> by done.
  assert (frame_ok w1 f) as Hok1.
  { unfold frame_ok in *. simpl.
    eapply slice_ok_ext; [apply (alloc_ext (w_bytes w) data)|done]. }
  destruct (Unmarshal_frame w1 (Some buf) f Hok1)
    as (Herr & Hrd & Hok' & Hlog & _).
  pose proof (Unmarshal_frame_cur w1 (Some buf) f) as Hcur.
  destruct (RawProtoCodec.Unmarshal (Some buf) (AnyFrame f) w1) as [err w'].
  cbn [fst snd] in *. subst err. exists w'.
  split; [done|]. split; [by split|]. split; [done|].
  rewrite Hrd. apply (alloc_read (w_bytes w0) data).
Qed.

Lemma SendMsg_frame ev answer f w :
  SendMsg ev answer f w = (answer, logged w [ev (CallSendMsg (frame_bytes w f))]).
Proof. done. Qed.

(** After the first message the loop only receives and forwards. *)
Lemma ForwardOutboundToInbound_loop_tail pending i src dst f w :
  i ≠ 0 → frame_ok w f →
  ∃ es,
    extends w (Handler.ForwardOutboundToInbound_loop pending i src dst f w).2 es ∧
    Forall relays es.
Proof.
  revert i w. induction pending as [|r pending IH]; intros i w Hi Hok;
    cbn [Handler.ForwardOutboundToInbound_loop].
  { exists []. split; [apply extends_refl|done]. }
  unfold mbind, M_bind. destruct r as [data|e].
  - destruct (RecvMsg_data EvClientStream data f w Hok)
      as (w1 & -> & Hext & Hok1 & _).
    rewrite decide_False by done. cbn [mret M_ret]. rewrite SendMsg_frame.
    set (w2 := logged w1 _).
    assert (extends w w2 [EvClientStream CallRecvMsg;
              EvServerStream (CallSendMsg (frame_bytes w1 f))]) as Hext2.
    { apply (extends_trans w w1 w2 [_] [_]); [done|apply extends_logged]. }
    assert (Forall relays [EvClientStream CallRecvMsg;
              EvServerStream (CallSendMsg (frame_bytes w1 f))]) as Hrel.
    { constructor; [by left|]. constructor; [right; eauto|constructor]. }
    destruct (ss_SendMsg dst i) as [e|].
    + eauto.
    + destruct (IH (S i) w2) as (es & Hes & Hrel'); [done|done|].
      eexists. split; [by eapply extends_trans|]. by apply Forall_app.
  - rewrite RecvMsg_err. exists [EvClientStream CallRecvMsg].
    split; [apply extends_logged|]. constructor; [by left|constructor].
Qed.

(** The first iteration of the loop when a message arrives. *)
Lemma ForwardOutboundToInbound_loop_first data pending src dst f w :
  frame_ok w f →
  ∃ w1, extends w w1 [EvClientStream CallRecvMsg] ∧ frame_ok w1 f ∧
    Handler.ForwardOutboundToInbound_loop (RecvData data :: pending) 0
      src dst f w
    = match cs_Header src, ss_SendHeader dst, ss_SendMsg dst 0 with
      | (md, Some e), _, _ => ([e], logged w1 [EvClientStream CallHeader])
      | (md, None), Some e, _ =>
          ([e], logged w1 [EvClientStream CallHeader;
                           EvServerStream (CallSendHeader md)])
      | (md, None), None, Some e =>
          ([e], logged w1 [EvClientStream CallHeader;
                           EvServerStream (CallSendHeader md);
                           EvServerStream (CallSendMsg data)])
      | (md, None), None, None =>
          Handler.ForwardOutboundToInbound_loop pending 1 src dst f
            (logged w1 [EvClientStream CallHeader;
                        EvServerStream (CallSendHeader md);
                        EvServerStream (CallSendMsg data)])
      end.
Proof.
  intros Hok. cbn [Handler.ForwardOutboundToInbound_loop].
  unfold mbind at 1, M_bind at 1.
  destruct (RecvMsg_data EvClientStream data f w Hok)
    as (w1 & -> & Hext & Hok1 & Hbytes).
  exists w1. split; [done|]. split; [done|]. cbv beta iota.
  rewrite decide_True by done.
  unfold Header, SendHeader. unfold mbind, M_bind. rewrite emit_logged.
  cbn [mret M_ret]. destruct (cs_Header src) as [md [e|]]; [done|].
  cbn [mret M_ret]. cbv beta iota. rewrite emit_logged, logged_app.
  cbn [app].
  destruct (ss_SendHeader dst) as [e|]; [done|].
  cbn [mret M_ret]. cbv beta iota. rewrite SendMsg_frame, logged_app.
  cbn [app].
  assert (frame_bytes (logged w1 [EvClientStream CallHeader;
            EvServerStream (CallSendHeader md)]) f = data) as -> by done.
  by destruct (ss_SendMsg dst 0).
Qed.

(** The loop from its start: what it reports and the calls it makes, by
    what the first [RecvMsg], [Header] and [SendHeader] answer. *)
Lemma ForwardOutboundToInbound_loop_head src dst f w c w' :
  frame_ok w f →
  Handler.ForwardOutboundToInbound_loop (cs_RecvMsg src) 0 src dst f w
  = (c, w') →
  ∃ es, extends w w' es ∧
    match cs_RecvMsg src with
    | [] => c = [] ∧ es = []
    | RecvErr e :: _ => c = [e] ∧ es = [EvClientStream CallRecvMsg]
    | RecvData data :: _ =>
        match cs_Header src, ss_SendHeader dst with
        | (md, Some e), _ =>
            c = [e] ∧
            es = [EvClientStream CallRecvMsg; EvClientStream CallHeader]
        | (md, None), Some e =>
            c = [e] ∧
            es = [EvClientStream CallRecvMsg; EvClientStream CallHeader;
                  EvServerStream (CallSendHeader md)]
        | (md, None), None =>
            ∃ rest,
              es = [EvClientStream CallRecvMsg; EvClientStream CallHeader;
                    EvServerStream (CallSendHeader md);
                    EvServerStream (CallSendMsg data)] ++ rest ∧
              Forall relays rest
        end
    end.
Proof.
  intros Hok. destruct (cs_RecvMsg src) as [|[data|e] pending].
  { intros [= <- <-]. exists []. split; [apply extends_refl|done]. }
  2:{ intros [= <- <-]. exists [EvClientStream CallRecvMsg].
      split; [apply (extends_logged w [_])|done]. }
  destruct (ForwardOutboundToInbound_loop_first data pending src dst f w Hok)
    as (w1 & Hext & Hok1 & ->).
  destruct (cs_Header src) as [md [e|]].
  { intros [= <- <-]. eexists. split; [|done].
    apply (extends_trans w w1 _ [_] [_]); [done|apply extends_logged]. }
  destruct (ss_SendHeader dst) as [e|].
  { intros [= <- <-]. eexists. split; [|done].
    apply (extends_trans w w1 _ [_] [_; _]); [done|apply extends_logged]. }
  set (w2 := logged w1 _).
  assert (extends w w2 [EvClientStream CallRecvMsg; EvClientStream CallHeader;
            EvServerStream (CallSendHeader md);
            EvServerStream (CallSendMsg data)]) as Hext2.
  { apply (extends_trans w w1 _ [_] [_; _; _]); [done|apply extends_logged]. }
  destruct (ss_SendMsg dst 0) as [e|].
  { intros [= <- <-]. eexists. split; [done|]. exists []. by rewrite app_nil_r. }
  destruct (ForwardOutboundToInbound_loop_tail pending 1 src dst f w2)
    as (rest & Hrest & Hrel); [done|done|].
  intros Hloop. rewrite Hloop in Hrest. cbn [snd] in Hrest.
  eexists. split; [by eapply extends_trans|]. eauto.
Qed.

Lemma sends_after_header_short es :
  Forall (λ e, ∀ payload, e ≠ EvServerStream (CallSendMsg payload)) es →
  sends_after_header es.
Proof.
  intros Hall i payload Hi. rewrite Forall_lookup in Hall.
  by destruct (Hall i _ Hi payload).
Qed.

Lemma sends_after_header_prefix e1 e2 md rest :
  e1 = EvClientStream CallRecvMsg → e2 = EvClientStream CallHeader →
  sends_after_header (e1 :: e2 :: EvServerStream (CallSendHeader md) :: rest).
Proof.
  intros -> -> i payload Hi. exists 2, md. split; [|done].
  destruct i as [|[|[|i]]]; simpl in Hi; [done..|lia].
Qed.
End forward_facts.

(** C3: in the task forwarding from the outbound to the inbound stream,
    when the first [RecvMsg] delivers a message the task calls [Header] on
    the outbound stream and [SendHeader] with its result on the inbound
    stream before it sends that message on; if either call fails the task
    reports that error and sends nothing.  No other headers are read or
    sent, so every message sent on the inbound stream comes after the
    header. *)
Theorem ForwardOutboundToInbound_header_first (h : Handler.t)
    (src : ClientStream) (dst : ServerStream) (w : World) :
  let r := Handler.ForwardOutboundToInbound h src dst w in
  let calls := calls_since w r.2 in
  sends_after_header calls ∧
  match cs_RecvMsg src with
  | [] => r.1 = [] ∧ calls = []
  | RecvErr e :: _ => r.1 = [e] ∧ calls = [EvClientStream CallRecvMsg]
  | RecvData data :: _ =>
      match cs_Header src, ss_SendHeader dst with
      | (md, Some e), _ =>
          r.1 = [e] ∧
          calls = [EvClientStream CallRecvMsg; EvClientStream CallHeader]
      | (md, None), Some e =>
          r.1 = [e] ∧
          calls = [EvClientStream CallRecvMsg; EvClientStream CallHeader;
                   EvServerStream (CallSendHeader md)]
      | (md, None), None =>
          ∃ rest,
            calls = [EvClientStream CallRecvMsg; EvClientStream CallHeader;
                     EvServerStream (CallSendHeader md);
                     EvServerStream (CallSendMsg data)] ++ rest ∧
            Forall relays rest
      end
  end.
Proof.
  cbv zeta. unfold Handler.ForwardOutboundToInbound, go, mbind, M_bind.
  set (wg := set_cur GoOutboundToInbound w).
  set (f := fresh (dom (w_frames wg))).
  set (wf := set_frames (<[f := None]> (w_frames wg)) wg).
  assert (new_RawProtoFrame wg = (f, wf)) as -> by done.
  assert (frame_ok wf f) as Hok.
  { unfold frame_ok, wf. simpl. by rewrite lookup_insert_eq. }
  destruct (Handler.ForwardOutboundToInbound_loop _ _ _ _ _ wf) as [c w2]
    eqn:Hloop.
  destruct (ForwardOutboundToInbound_loop_head src dst f wf c w2 Hok Hloop)
    as (es & Hext & Hshape).
  cbn [fst snd] in *.
  assert (calls_since w (set_cur (w_cur w) w2) = es) as ->.
  { destruct Hext as [_ Hlog]. unfold calls_since. simpl. rewrite Hlog. simpl.
    rewrite drop_app_length, <-list_fmap_compose. by rewrite list_fmap_id. }
  split; [|done].
  destruct (cs_RecvMsg src) as [|[data|e] pending].
  - destruct Hshape as [_ ->]. by apply sends_after_header_short.
  - destruct (cs_Header src) as [md [e|]]; [|destruct (ss_SendHeader dst) as [e|]].
    + destruct Hshape as [_ ->]. apply sends_after_header_short.
      by repeat constructor.
    + destruct Hshape as [_ ->]. by apply sends_after_header_prefix.
    + destruct Hshape as (rest & -> & _). by apply sends_after_header_prefix.
  - destruct Hshape as [_ ->]. apply sends_after_header_short.
    by repeat constructor.
Qed.

(** ** Registration *)

Section register_facts.
Implicit Types (streamer : Handler.t) (methodNames : list string).

Lemma fakeDesc_Streams streamer serviceName methodNames :
  fakeDesc streamer serviceName methodNames
  = mkServiceDesc serviceName (streamDesc_of streamer <$> methodNames).
Proof.
  unfold fakeDesc.
  change (mkServiceDesc serviceName (streamDesc_of streamer <$> methodNames))
    with (mkServiceDesc (ServiceName (mkServiceDesc serviceName []))
            (Streams (mkServiceDesc serviceName [])
             ++ (streamDesc_of streamer <$> methodNames))).
  generalize (mkServiceDesc serviceName []).
  induction methodNames as [|m methodNames IH]; intros d; simpl.
  - rewrite app_nil_r. by destruct d.
  - rewrite IH. simpl. by rewrite <-app_assoc.
Qed.

(** The map of stream handlers the server builds from the descriptor. *)
Lemma streams_lookup streamer methodNames (m0 : gmap string StreamDesc) m :
  foldl (λ acc d, <[StreamName d := d]> acc) m0
    (streamDesc_of streamer <$> methodNames) !! m
  = if decide (m ∈ methodNames) then Some (streamDesc_of streamer m)
    else m0 !! m.
Proof.
  revert m0. induction methodNames as [|m' methodNames IH]; intros m0.
  { rewrite decide_False; [done|]. apply not_elem_of_nil. }
  rewrite fmap_cons. cbn [foldl]. rewrite IH.
  destruct (decide (m ∈ methodNames)) as [Hin|Hnin],
    (decide (m ∈ m' :: methodNames)) as [Hin'|Hnin']; try done.
  - exfalso. apply Hnin'. by right.
  - apply elem_of_cons in Hin' as [->|?]; [|done]. apply lookup_insert_eq.
  - apply lookup_insert_ne. intros <-. apply Hnin'. by left.
Qed.
End register_facts.

(** C8: [RegisterService] builds a descriptor for [serviceName] with one
    stream per listed method name, in order, each bidirectional and handled
    by the relay handler of the director; on a server without an
    unknown-service handler, a call of a listed method of the service runs
    that handler, and a call of any other method of the service is rejected
    with status [Unimplemented] and leaves the store untouched (no handler,
    hence no director, runs). *)
Theorem RegisterService_exposes_only_listed (server : Server)
    (director : StreamDirector) (serviceName : string)
    (methodNames : list string) (server' : Server) :
  RegisterService server director serviceName methodNames = Some server' →
  unknownStreamDesc server = None →
  let streamer := Handler.mk director in
  let desc := fakeDesc streamer serviceName methodNames in
  ServiceName desc = serviceName ∧
  StreamName <$> Streams desc = methodNames ∧
  Forall (λ d, Handler d = Some (Handler.Handler streamer) ∧
               ServerStreams d = true ∧ ClientStreams d = true)
    (Streams desc) ∧
  (∀ m, m ∈ methodNames →
     ∃ srv, Server_handleStream server' serviceName m
            = RunHandler srv (Handler.Handler streamer)) ∧
  (∀ m, m ∉ methodNames →
     (∃ errDesc, Server_handleStream server' serviceName m
                 = Reject (status.Errorf codes.Unimplemented errDesc)) ∧
     ∀ stream w, ∃ e,
       Server_serve server' serviceName m stream w = (Return (Some e), w) ∧
       status.Code (Some e) = codes.Unimplemented).
Proof.
  intros Hreg Hunk. cbv zeta. rewrite fakeDesc_Streams.
  unfold RegisterService, Server_RegisterService in Hreg.
  rewrite fakeDesc_Streams in Hreg. cbn [ServiceName Streams] in *.
  destruct (services server !! serviceName); [done|].
  injection Hreg as <-.
  split; [done|]. split.
  { rewrite <-list_fmap_compose. apply list_fmap_id. }
  split.
  { apply Forall_fmap, Forall_true. by intros m. }
  assert (∀ m, Server_handleStream
            (mkServer (<[serviceName :=
               (AnyOther "*grpc.Handler",
                foldl (λ acc d, <[StreamName d := d]> acc) ∅
                  (streamDesc_of (Handler.mk director) <$> methodNames))]>
               (services server)) (unknownStreamDesc server))
            serviceName m
          = if decide (m ∈ methodNames)
            then RunHandler (AnyOther "*grpc.Handler")
                   (Handler.Handler (Handler.mk director))
            else Reject (status.Errorf codes.Unimplemented
                   ("unknown method " +:+ m +:+ " for service " +:+ serviceName)))
    as Hdisp.
  { intros m. unfold Server_handleStream. cbn [services unknownStreamDesc].
    rewrite lookup_insert_eq, streams_lookup, Hunk.
    by destruct (decide (m ∈ methodNames)). }
  split.
  - intros m Hm. eexists. rewrite Hdisp. by rewrite decide_True.
  - intros m Hm. split.
    + eexists. rewrite Hdisp. by rewrite decide_False.
    + intros stream w. eexists. unfold Server_serve.
      rewrite Hdisp, decide_False by done. done.
Qed.

(** X14: Without further options [NewProxy] installs the transparent handler
    for every method the server does not know: on such a server a whitelist
    registered with [RegisterService] does not keep unlisted methods from
    the relay handler. *)
Lemma NewProxy_forwards_unlisted (dst : option ClientConn)
    (director : StreamDirector) (serviceName : string)
    (methodNames : list string) (server' : Server) (m : string) :
  RegisterService (NewProxy dst []) director serviceName methodNames
  = Some server' →
  m ∉ methodNames →
  Server_handleStream server' serviceName m
  = RunHandler (AnyOther "<nil>") (TransparentHandler (DefaultDirector dst)).
Proof.
  unfold RegisterService, Server_RegisterService.
  rewrite fakeDesc_Streams. cbn [ServiceName Streams].
  destruct (services (NewProxy dst []) !! serviceName); [done|].
  intros [= <-] Hm. unfold Server_handleStream. cbn [services unknownStreamDesc].
  rewrite lookup_insert_eq, streams_lookup, decide_False by done.
  by rewrite lookup_empty.
Qed.

(** ** Concrete calls *)

(** The call of the package's test through a proxy with a fixed backend:
    the handler returns nil; the backend's header goes to the caller before
    the answer "ping::ok"; the trailer is set before the handler returns. *)
Example echo_call :
  let r := Handler.Handler (proxy_to cs_echo) (AnyOther "<nil>") ss_echo
             w_meta in
  r.1 = Return None ∧
  calls_of GoInboundToOutbound r.2
  = [EvServerStream CallRecvMsg; EvClientStream (CallSendMsg ping);
     EvServerStream CallRecvMsg] ∧
  calls_of GoOutboundToInbound r.2
  = [EvClientStream CallRecvMsg; EvClientStream CallHeader;
     EvServerStream (CallSendHeader {["x-target-header" := ["1"]]});
     EvServerStream (CallSendMsg ping_ok); EvClientStream CallRecvMsg] ∧
  calls_of GoHandler r.2
  = [EvNewClientStream "/acme.demo.v1.DemoService/Echo";
     EvClientStream CallCloseSend; EvClientStream CallTrailer;
     EvServerStream (CallSetTrailer {["x-target-trailer" := ["1"]]});
     EvCancel].
Proof. vm_compute. repeat split; reflexivity. Qed.

Lemma Handler_outbound_reports_first_witness :
  (Handler.Handler (proxy_to cs_unimplemented) (AnyOther "<nil>") ss_open
     w_meta).1
  = Return (Some err_unimplemented).
Proof.
  assert (∃ w', relaying (proxy_to cs_unimplemented) ss_open w_meta
                = Some (cs_unimplemented, [], [err_unimplemented], w'))
    as [w' Hrel] by (eexists; vm_compute; reflexivity).
  by rewrite (Handler_outbound_reports_first _ (AnyOther "<nil>") _ _ _ _ _ _
                err_unimplemented [] [] Hrel eq_refl).
Defined.

Lemma Handler_inbound_reports_first_witness :
  (Handler.Handler (proxy_to cs_echo) (AnyOther "<nil>") ss_echo w_meta).1
  = Return None.
Proof.
  assert (∃ w', relaying (proxy_to cs_echo) ss_echo w_meta
                = Some (cs_echo, [io_EOF], [io_EOF], w') ∧ w_sched w' 0 = true)
    as (w' & Hrel & Hsched) by (eexists; vm_compute; split; reflexivity).
  assert (select (w_sched w' 0) [io_EOF] [io_EOF] = (FromFirst io_EOF, [], [io_EOF]))
    as Hsel by (by rewrite Hsched).
  pose proof (Handler_inbound_reports_first _ (AnyOther "<nil>") _ _ _ _ _ _
                _ _ _ Hrel Hsel) as H.
  simpl in H. by rewrite H.
Defined.

(** C2 as stated fails when the half-close fails: the caller has closed its
    side, the backend never answers, so that the task forwarding from the
    outbound stream never reports, and the handler returns all the same. *)
Lemma Handler_CloseSend_fails :
  (∃ w', relaying (proxy_to cs_broken) ss_closed w_meta
         = Some (cs_broken, [io_EOF], [], w')) ∧
  (Handler.Handler (proxy_to cs_broken) (AnyOther "<nil>") ss_closed w_meta).1
  = Return (Some err_closed).
Proof. split; [eexists|]; vm_compute; reflexivity. Qed.

Lemma Handler_director_fails_witness :
  let r := Handler.Handler (Handler.mk no_route) (AnyOther "<nil>") ss_echo
             w_meta in
  r = (Return (Some (status.Errorf codes.Unimplemented
         "unknown method: /acme.demo.v1.DemoService/Echo")), w_meta).
Proof.
  by apply (Handler_director_fails (Handler.mk no_route) (AnyOther "<nil>")
              ss_echo w_meta "/acme.demo.v1.DemoService/Echo"
              (ss_Context ss_echo) None _ w_meta eq_refl eq_refl).
Defined.

(** C9 as stated fails when a task never reports: the caller has closed its
    side, the half-close has worked, the backend never answers, and the
    handler waits for ever. *)
Lemma Handler_hangs :
  (∃ w', relaying (proxy_to cs_silent) ss_closed w_meta
         = Some (cs_silent, [io_EOF], [], w')) ∧
  (Handler.Handler (proxy_to cs_silent) (AnyOther "<nil>") ss_closed w_meta).1
  = Hang.
Proof. split; [eexists|]; vm_compute; reflexivity. Qed.

Lemma reconcile_returns_or_waits_witness :
  (Handler.reconcile 2 0 cs_echo ss_echo (emit EvCancel) [io_EOF; io_EOF] []
     w_meta).1
  = Return (Some (status.Errorf codes.Internal
                    "gRPC proxying should never reach this stage.")).
Proof.
  destruct (reconcile_returns_or_waits cs_echo ss_echo [io_EOF; io_EOF] []
              w_meta) as (_ & _ & _ & Hfall).
  by rewrite (Hfall [io_EOF] [] [] [] eq_refl eq_refl eq_refl).
Defined.

Lemma RegisterService_exposes_only_listed_witness :
  match RegisterService empty_server (DefaultDirector None)
          "acme.demo.v1.DemoService" ["Echo"] with
  | Some server' =>
      ∃ e, Server_serve server' "acme.demo.v1.DemoService" "Nope" ss_echo w_meta
           = (Return (Some e), w_meta) ∧
           status.Code (Some e) = codes.Unimplemented
  | None => False
  end.
Proof.
  destruct (RegisterService _ _ _ _) as [server'|] eqn:Hreg;
    [|discriminate Hreg].
  destruct (RegisterService_exposes_only_listed _ _ _ _ _ Hreg eq_refl)
    as (_ & _ & _ & _ & Hno).
  apply (Hno "Nope").
  intros [?|?%elem_of_nil]%elem_of_cons; done.
Defined.

(** * Further properties of the package *)

(** ** The raw codec and its frames *)

Lemma slice_read_store_same {A} `{!Inhabited A} (h : gmap loc (list A))
    (s0 : slice) (i : nat) (x : A) :
  i < s_len s0 →
  slice_read (alter (λ cells, <[s_off s0 + i := x]> cells) (s_arr s0) h)
    (Some s0)
  = <[i := x]> (slice_read h (Some s0)).
Proof.
  intros Hi. simpl. rewrite lookup_total_alter_eq, lookup_total_alt.
  destruct (h !! s_arr s0) as [cells|]; simpl.
  - rewrite drop_insert_ge by lia.
    replace (s_off s0 + i - s_off s0) with i by lia.
    by rewrite take_insert_lt.
  - by rewrite drop_nil, take_nil.
Qed.

(** X1: [RawProtoCodec.Marshal] does not copy: it returns the frame's own
    slice and changes nothing, so a store through the returned slice shows
    in the frame. *)
Theorem Marshal_shares_payload (w : World) (f : loc) (i : nat) (x : byte)
    (h' : gmap loc (list byte)) :
  slice_store (w_bytes w) (RawProtoCodec.Marshal (AnyFrame f) w).1.1 i x
  = Some h' →
  (RawProtoCodec.Marshal (AnyFrame f) w).2 = w ∧
  (RawProtoCodec.Marshal (AnyFrame f) w).1.2 = None ∧
  frame_bytes (set_bytes h' w) f = <[i := x]> (frame_bytes w f).
Proof.
  rewrite Marshal_frame. cbn [fst snd]. intros Hst.
  split; [done|]. split; [done|]. unfold frame_bytes. cbn [set_bytes w_bytes w_frames].
  destruct (default None (w_frames w !! f)) as [p|]; [|done].
  simpl in Hst. case_decide; [|done]. injection Hst as <-.
  by apply slice_read_store_same.
Qed.

Lemma Marshal_shares_payload_witness :
  ∃ h', slice_store (w_bytes w_ping)
          (RawProtoCodec.Marshal (AnyFrame 1) w_ping).1.1 0 xff = Some h' ∧
        frame_bytes (set_bytes h' w_ping) 1 = [xff; x69; x6e; x67].
Proof.
  eexists. split; [reflexivity|].
  destruct (Marshal_shares_payload w_ping 1 0 xff _ eq_refl) as (_ & _ & ->).
  reflexivity.
Defined.

(** X2: [RawProtoCodec.Unmarshal] reuses the frame's array: a message that
    fits the capacity of the payload is written into the payload's own
    array, at its own offset, and no array is allocated; a longer one goes
    to an array that did not exist, and every array that did is left as it
    was. *)
Theorem Unmarshal_reuses_capacity (w : World) (data : option slice) (f : loc) :
  slice_ok (w_bytes w) data → 0 < len data →
  let p := default None (w_frames w !! f) in
  let r := RawProtoCodec.Unmarshal data (AnyFrame f) w in
  if decide (len data ≤ cap p) then
    ∃ p0 : slice, p = Some p0 ∧
      w_frames r.2 !! f
      = Some (Some (mkSlice (s_arr p0) (s_off p0) (len data) (s_cap p0))) ∧
      dom (w_bytes r.2) = dom (w_bytes w)
  else
    ∃ q : slice, w_frames r.2 !! f = Some (Some q) ∧
      (s_arr q ∉ dom (w_bytes w)) ∧ s_len q = len data ∧
      ∀ a, a ∈ dom (w_bytes w) → w_bytes r.2 !! a = w_bytes w !! a.
Proof.
  intros Hdata Hlen. cbv zeta.
  pose proof (slice_read_length _ _ Hdata) as Hxs.
  unfold RawProtoCodec.Unmarshal.
  rewrite (decide_False (P := len data = 0)) by lia.
  unfold mbind, M_bind, load_Payload, append_bytes, store_Payload, append.
  set (p := default None (w_frames w !! f)).
  assert (len (reslice0 p) = 0) as -> by (by destruct p).
  assert (cap (reslice0 p) = cap p) as -> by (by destruct p).
  rewrite Hxs. simpl. destruct (decide (len data ≤ cap p)) as [Hfit|Hbig].
  - destruct p as [p0|] eqn:Hp; simpl in *; [|lia].
    exists p0. split; [done|]. rewrite lookup_insert_eq. split; [done|].
    unfold array_write. by rewrite dom_alter_L.
  - simpl. eexists. rewrite lookup_insert_eq. split; [done|].
    split; [apply is_fresh|]. split; [done|].
    intros a Ha. rewrite lookup_insert_ne; [done|].
    intros <-. by apply (is_fresh (dom (w_bytes w))).
Qed.

Lemma Unmarshal_reuses_capacity_witness :
  let r := RawProtoCodec.Unmarshal (Some (mkSlice 1 1 2 3)) (AnyFrame 1) w_ping in
  w_frames r.2 !! 1 = Some (Some (mkSlice 1 0 2 4)) ∧
  dom (w_bytes r.2) = dom (w_bytes w_ping) ∧
  frame_bytes r.2 1 = [x69; x6e].
Proof.
  assert (slice_ok (w_bytes w_ping) (Some (mkSlice 1 1 2 3))) as Hok
    by (vm_compute; lia).
  pose proof (Unmarshal_reuses_capacity w_ping (Some (mkSlice 1 1 2 3)) 1 Hok)
    as H.
  cbv zeta in H. rewrite decide_True in H by (vm_compute; lia).
  destruct H as (p0 & Hp0 & Hf & Hdom); [simpl; lia|].
  vm_compute in Hp0. injection Hp0 as <-.
  split; [exact Hf|]. split; [exact Hdom|]. by vm_compute.
Defined.

Lemma Unmarshal_frames_ne (w : World) (data : option slice) (f g : loc) :
  g ≠ f →
  w_frames (RawProtoCodec.Unmarshal data (AnyFrame f) w).2 !! g
  = w_frames w !! g.
Proof.
  intros Hne. unfold RawProtoCodec.Unmarshal, append_bytes, mbind, M_bind.
  destruct (decide (len data = 0)); simpl.
  - by rewrite lookup_insert_ne.
  - destruct (append _ _ _ _). simpl. by rewrite lookup_insert_ne.
Qed.

(** X3: Decoding into one frame leaves every other frame as it is, provided
    the two payloads do not share an array: the frames of the two directions
    of a call do not disturb each other. *)
Theorem Unmarshal_leaves_other_frames (w : World) (data : option slice)
    (f g : loc) :
  frame_ok w f → frame_ok w g → g ≠ f →
  slices_apart (default None (w_frames w !! f))
    (default None (w_frames w !! g)) →
  let r := RawProtoCodec.Unmarshal data (AnyFrame f) w in
  w_frames r.2 !! g = w_frames w !! g ∧
  frame_bytes r.2 g = frame_bytes w g ∧ frame_ok r.2 g.
Proof.
  intros Hf Hg Hne Hapart. cbv zeta.
  pose proof (Unmarshal_frames_ne w data f g Hne) as Hfr.
  destruct (Unmarshal_frame w data f Hf) as (_ & _ & _ & _ & _ & _ & Hkeep).
  split; [done|]. unfold frame_bytes, frame_ok in *. rewrite Hfr.
  destruct (default None (w_frames w !! g)) as [pg|] eqn:Hpg; [|done].
  assert (w_bytes (RawProtoCodec.Unmarshal data (AnyFrame f) w).2 !! s_arr pg
          = w_bytes w !! s_arr pg) as Hsame.
  { apply Hkeep; [by apply slice_ok_dom|]. intros p0 Hp0.
    rewrite Hp0 in Hapart. simpl in Hapart. done. }
  split.
  - unfold slice_read. by rewrite !lookup_total_alt, Hsame.
  - unfold slice_ok in *. by rewrite Hsame.
Qed.

Lemma Unmarshal_leaves_other_frames_witness :
  let r := RawProtoCodec.Unmarshal (Some (mkSlice 3 0 2 2)) (AnyFrame 1)
             w_pair in
  frame_bytes w_pair 1 = ping ∧
  frame_bytes r.2 1 = [x6f; x6b] ∧
  w_bytes r.2 !! 1 = Some [x6f; x6b; x6e; x67] ∧
  frame_bytes r.2 2 = ping_ok.
Proof.
  cbv zeta. split; [reflexivity|]. split; [by vm_compute|].
  split; [by vm_compute|].
  destruct (Unmarshal_leaves_other_frames w_pair (Some (mkSlice 3 0 2 2)) 1 2)
    as (_ & -> & _);
    [vm_compute; lia|vm_compute; lia|lia|vm_compute; lia|].
  reflexivity.
Defined.

(** ** The forwarding tasks relay *)








(** ** The forwarding tasks stop at the first failing send *)








(** X8: Each forwarding task sends on its channel at most once, so that the
    one-place buffer of the channel always takes the value and the task ends
    whether or not the handler still listens. *)
Theorem forwarding_tasks_report_once (h : Handler.t) (serverStream : ServerStream)
    (clientStream : ClientStream) (w : World) :
  length (Handler.ForwardInboundToOutbound h serverStream clientStream w).1 ≤ 1 ∧
  length (Handler.ForwardOutboundToInbound h clientStream serverStream w).1 ≤ 1.
Proof.
  unfold Handler.ForwardInboundToOutbound, Handler.ForwardOutboundToInbound,
    go, mbind, M_bind.
  destruct (new_RawProtoFrame (set_cur GoInboundToOutbound w)) as [f1 w1].
  destruct (new_RawProtoFrame (set_cur GoOutboundToInbound w)) as [f2 w2].
  pose proof (ForwardInboundToOutbound_loop_once (ss_RecvMsg serverStream) 0
                serverStream clientStream f1 w1).
  pose proof (ForwardOutboundToInbound_loop_once (cs_RecvMsg clientStream) 0
                clientStream serverStream f2 w2).
  destruct (Handler.ForwardInboundToOutbound_loop _ _ _ _ _ w1).
  by destruct (Handler.ForwardOutboundToInbound_loop _ _ _ _ _ w2).
Qed.

(** ** The handler on its other paths *)

(** X9: When the outbound stream cannot be opened the handler returns the
    error of [grpc.NewClientStream] as it is; it starts no forwarding task,
    and its only calls are the attempt and the deferred [clientCancel]. *)
Theorem Handler_NewClientStream_fails (h : Handler.t) (srv : any)
    (serverStream : ServerStream) (w : World) (fullMethodName : string)
    (outgoingCtx : Context) (targetConn : ClientConn) (w1 : World)
    (err : error) :
  MethodFromServerStream serverStream = Some fullMethodName →
  Handler.director h (ss_Context serverStream) fullMethodName w
  = ((outgoingCtx, Some targetConn, None), w1) →
  cc_NewStream targetConn fullMethodName = inr err →
  Handler.Handler h srv serverStream w
  = (Return (Some err),
     logged w1 [EvNewClientStream fullMethodName; EvCancel]).
Proof.
  intros Hm Hd Hn. unfold Handler.Handler. rewrite Hm.
  unfold mbind at 1, M_bind at 1. rewrite Hd. unfold WithCancel.
  rewrite defer_cancel. unfold NewClientStream, mbind, M_bind.
  rewrite emit_logged, Hn. cbn [mret M_ret]. by rewrite logged_app.
Qed.

Lemma Handler_NewClientStream_fails_witness :
  let r := Handler.Handler
             (Handler.mk (DefaultDirector
                (Some (mkClientConn (λ _, inr err_unimplemented)))))
             (AnyOther "<nil>") ss_echo w_meta in
  r.1 = Return (Some err_unimplemented) ∧
  calls_of GoHandler r.2
  = [EvNewClientStream "/acme.demo.v1.DemoService/Echo"; EvCancel].
Proof.
  cbv zeta.
  rewrite (Handler_NewClientStream_fails
             (Handler.mk (DefaultDirector
                (Some (mkClientConn (λ _, inr err_unimplemented)))))
             (AnyOther "<nil>") ss_echo w_meta
             "/acme.demo.v1.DemoService/Echo" (mkContext (Some 1) (Some 3))
             (mkClientConn (λ _, inr err_unimplemented))
             (DefaultDirector None (ss_Context ss_echo) "" w_meta).2
             err_unimplemented eq_refl eq_refl eq_refl).
  split; [reflexivity|by vm_compute].
Defined.

(** X10: Once the director has given a connection, every return of the
    handler runs the deferred [clientCancel]: whatever the path, the last
    call before the handler returns cancels the outbound context. *)
Theorem Handler_cancels_on_return (h : Handler.t) (srv : any)
    (serverStream : ServerStream) (w : World) (fullMethodName : string)
    (outgoingCtx : Context) (targetConn : ClientConn) (w1 : World)
    (err : option error) (w' : World) :
  MethodFromServerStream serverStream = Some fullMethodName →
  Handler.director h (ss_Context serverStream) fullMethodName w
  = ((outgoingCtx, Some targetConn, None), w1) →
  Handler.Handler h srv serverStream w = (Return err, w') →
  ∃ l g, w_log w' = l ++ [(g, EvCancel)].
Proof.
  intros Hm Hd. unfold Handler.Handler. rewrite Hm.
  unfold mbind at 1, M_bind at 1. rewrite Hd. unfold WithCancel.
  rewrite defer_cancel.
  match goal with |- context [match ?b with _ => _ end] =>
    destruct b as [[err0|] w2] end; [|done].
  intros [= <- <-]. by eexists _, _.
Qed.

Lemma Handler_cancels_on_return_witness :
  ∃ l g,
    w_log (Handler.Handler (proxy_to cs_echo) (AnyOther "<nil>") ss_echo
             w_meta).2
    = l ++ [(g, EvCancel)].
Proof.
  eapply (Handler_cancels_on_return (proxy_to cs_echo) (AnyOther "<nil>")
            ss_echo w_meta "/acme.demo.v1.DemoService/Echo"
            (mkContext (Some 1) (Some 3)) (mkClientConn (λ _, inl cs_echo)));
    [reflexivity|reflexivity|vm_compute; reflexivity].
Defined.

(** The calls of the handler from the start of its loop, for channels that
    carry at most one report each. *)
Lemma Handler_relaying_calls (h : Handler.t) (srv : any) (ss : ServerStream)
    (w : World) (cs : ClientStream) (inCh outCh : chan) (w' : World) :
  relaying h ss w = Some (cs, inCh, outCh, w') →
  ∃ out es,
    Handler.Handler h srv ss w = (out, logged w' es) ∧
    length (filter is_CloseSend es) ≤ 1 ∧
    length (filter is_SetTrailer es) ≤ 1 ∧
    (∀ e, outCh = [e] → (inCh = [] ∨ inCh = [io_EOF]) →
          cs_CloseSend cs = None →
          out = Return (if decide (e = io_EOF) then None else Some e) ∧
          EvServerStream (CallSetTrailer (cs_Trailer cs)) ∈ es).
Proof.
  intros Hrel. rewrite (Handler_relaying _ _ _ _ _ _ _ _ Hrel), defer_cancel.
  destruct (relaying_once _ _ _ _ _ _ _ Hrel) as [Hin Hout].
  destruct (select (w_sched w' 0) inCh outCh) as [[[e|e|] c1] c2] eqn:Hsel.
  - destruct (select_first_once _ _ _ _ _ _ Hsel Hin) as (-> & -> & ->).
    destruct (decide (e = io_EOF)) as [->|He].
    + rewrite (reconcile_first_EOF _ _ _ _ _ _ _ _ _ _ Hsel).
      destruct (cs_CloseSend cs) as [ce|] eqn:Hclose.
      { rewrite logged_app. eexists _, _. split; [done|].
        split; [simpl; lia|]. split; [simpl; lia|]. by intros e _ _ ?. }
      destruct outCh as [|e2 [|??]]; [| |simpl in Hout; lia].
      * rewrite (reconcile_blocks _ _ _ _ _ [] [] _ [] []) by done.
        eexists _, _. split; [done|]. split; [simpl; lia|].
        split; [simpl; lia|]. by intros e ? _ _.
      * rewrite (reconcile_second _ _ _ _ _ [] [e2] _ e2 [] []) by done.
        rewrite !logged_app. eexists _, _. split; [done|].
        split; [simpl; lia|]. split; [simpl; lia|].
        intros e [= <-] _ _. split; [done|]. set_solver.
    + rewrite (reconcile_first_error _ _ _ _ _ _ _ _ _ _ _ Hsel He).
      rewrite emit_logged. cbn [snd]. rewrite logged_app.
      eexists _, _. split; [done|]. split; [simpl; lia|].
      split; [simpl; lia|]. intros e' _ [?|[= ?]] _; done.
  - rewrite (reconcile_second _ _ _ _ _ _ _ _ _ _ _ Hsel), logged_app.
    eexists _, _. split; [done|]. split; [simpl; lia|]. split; [simpl; lia|].
    intros e' -> _ _.
    assert (e = e') as ->.
    { destruct inCh as [|? ?], (w_sched w' 0); simpl in Hsel; by simplify_eq. }
    split; [done|]. set_solver.
  - rewrite (reconcile_blocks _ _ _ _ _ _ _ _ _ _ Hsel).
    exists Hang, []. rewrite logged_nil. split; [done|]. split; [simpl; lia|].
    split; [simpl; lia|]. intros e -> _ _.
    destruct inCh, (w_sched w' 0); simpl in Hsel; by simplify_eq.
Qed.

(** X11: From the start of its loop the handler half-closes the outbound
    stream at most once and sets the inbound trailer at most once: as each
    task reports at most once, the statement after the loop, which takes two
    clean ends of the inbound side, is not reached. *)
Theorem Handler_half_closes_once (h : Handler.t) (srv : any)
    (serverStream : ServerStream) (w : World) (clientStream : ClientStream)
    (inCh outCh : chan) (w' : World) :
  relaying h serverStream w = Some (clientStream, inCh, outCh, w') →
  let calls := calls_since w' (Handler.Handler h srv serverStream w).2 in
  length (filter is_CloseSend calls) ≤ 1 ∧
  length (filter is_SetTrailer calls) ≤ 1.
Proof.
  intros Hrel. cbv zeta.
  destruct (Handler_relaying_calls h srv _ _ _ _ _ _ Hrel)
    as (out & es & -> & Hclose & Htrailer & _).
  cbn [snd]. by rewrite calls_since_logged.
Qed.

Lemma Handler_half_closes_once_witness :
  ∃ w', relaying (proxy_to cs_echo) ss_echo w_meta
        = Some (cs_echo, [io_EOF], [io_EOF], w') ∧
    length (filter is_CloseSend
      (calls_since w'
         (Handler.Handler (proxy_to cs_echo) (AnyOther "<nil>") ss_echo
            w_meta).2)) ≤ 1.
Proof.
  assert (∃ w', relaying (proxy_to cs_echo) ss_echo w_meta
                = Some (cs_echo, [io_EOF], [io_EOF], w'))
    as [w' Hrel] by (eexists; vm_compute; reflexivity).
  exists w'. split; [exact Hrel|].
  apply (Handler_half_closes_once _ (AnyOther "<nil>") _ _ _ _ _ _ Hrel).
Defined.

(** X12: When the caller ends its side cleanly or keeps it open, the
    half-close works and the outbound task reports, the outcome of the call
    does not depend on which report the handler takes first: it is the error
    the outbound task reports, nil for [io.EOF], and the trailer of the
    outbound stream has been set on the inbound stream. *)
Theorem Handler_outcome_is_outbound_report (h : Handler.t) (srv : any)
    (serverStream : ServerStream) (w : World) (clientStream : ClientStream)
    (inCh : chan) (e : error) (w' : World) :
  relaying h serverStream w = Some (clientStream, inCh, [e], w') →
  inCh = [] ∨ inCh = [io_EOF] →
  cs_CloseSend clientStream = None →
  let r := Handler.Handler h srv serverStream w in
  r.1 = Return (if decide (e = io_EOF) then None else Some e) ∧
  EvServerStream (CallSetTrailer (cs_Trailer clientStream))
    ∈ calls_since w' r.2.
Proof.
  intros Hrel Hin Hclose. cbv zeta.
  destruct (Handler_relaying_calls h srv _ _ _ _ _ _ Hrel)
    as (out & es & -> & _ & _ & Hout).
  cbn [fst snd]. rewrite calls_since_logged. by apply Hout.
Qed.

Lemma Handler_outcome_is_outbound_report_witness :
  (Handler.Handler (proxy_to cs_unimplemented) (AnyOther "<nil>") ss_closed
     w_meta).1
  = Return (Some err_unimplemented).
Proof.
  assert (∃ w', relaying (proxy_to cs_unimplemented) ss_closed w_meta
                = Some (cs_unimplemented, [io_EOF], [err_unimplemented], w'))
    as [w' Hrel] by (eexists; vm_compute; reflexivity).
  by destruct (Handler_outcome_is_outbound_report _ (AnyOther "<nil>") _ _ _ _
                 _ _ Hrel (or_intror eq_refl) eq_refl) as [-> _].
Defined.

(** ** The default director, the other way round *)

Lemma shielded_read (w0 : World) (o : loc) (O : gset loc) (i : loc) (w' : World) :
  shielded w0 o O i w' →
  (∀ k (s : slice), MD_entries w0 (Some o) !! k = Some (Some s) → s_arr s ∈ O) →
  MD_read w' (Some o) = MD_read w0 (Some o).
Proof.
  intros (Hmap & Harrs & _) HO. unfold MD_read.
  assert (MD_entries w' (Some o) = MD_entries w0 (Some o)) as ->.
  { unfold MD_entries. simpl. by rewrite Hmap. }
  apply map_eq. intros k. rewrite !lookup_fmap.
  destruct (MD_entries w0 (Some o) !! k) as [[s|]|] eqn:Hk; [|done..].
  simpl. f_equal. rewrite !lookup_total_alt.
  by destruct (Harrs _ (HO k s Hk)) as [-> _].
Qed.

Lemma MD_apply_shielded (w0 : World) (o : loc) (O : gset loc) (i : loc)
    (w' : World) (op : MDop) :
  i ≠ o → shielded w0 o O i w' → shielded w0 o O i (MD_apply i op w').2.
Proof.
  intros Hne (Hmap & Harrs & Hout).
  assert (∀ a, a ∈ O → a ∈ dom (w_strs w')) as Hdom.
  { intros a Ha. destruct (Harrs a Ha) as [Heq Hin]. apply elem_of_dom.
    rewrite Heq. by apply elem_of_dom. }
  assert (∀ k, ∀ s0 : slice,
            default None (MD_entries w' (Some i) !! k) = Some s0 →
            s_arr s0 ∉ O) as Hout'.
  { intros k s0 Hk. apply (Hout k).
    destruct (MD_entries w' (Some i) !! k) as [[?|]|]; by simplify_eq/=. }
  assert (∀ f, alter f i (w_mds w') !! o = w_mds w0 !! o) as Hmap'.
  { intros f. by rewrite lookup_alter_ne. }
  destruct op as [k vals|k vals|k|k n v]; simpl.
  - split; [apply Hmap'|]. split.
    + intros a Ha. destruct (Harrs a Ha) as [Heq Hin]. split; [|done].
      simpl.
      rewrite lookup_insert_ne; [done|].
      intros <-. by apply (is_fresh (dom (w_strs w'))), Hdom.
    + intros k0 s. unfold MD_entries. simpl. rewrite lookup_alter_eq.
      destruct (w_mds w' !! i) as [m|] eqn:Hm; simpl; [|done].
      destruct (decide (k = k0)) as [->|Hk].
      * rewrite lookup_insert_eq. intros [= <-]. simpl.
        intros Ha. by apply (is_fresh (dom (w_strs w'))), Hdom.
      * rewrite lookup_insert_ne by done. intros Hk0. apply (Hout k0).
        unfold MD_entries. simpl. by rewrite Hm.
  - pose proof (append_arr (w_grow w') (w_strs w')
      (default None (MD_entries w' (Some i) !! k)) vals) as Hwhere.
    pose proof (append_lookup_ne (w_grow w') (w_strs w')
      (default None (MD_entries w' (Some i) !! k)) vals) as Hkeep.
    destruct (append _ _ _ _) as [h s']. simpl in *.
    split; [apply Hmap'|]. split.
    + intros a Ha. destruct (Harrs a Ha) as [Heq Hin]. split; [|done].
      simpl.
      rewrite Hkeep; [done|by apply Hdom|].
      intros s0 Hs0 <-. by apply (Hout' k s0).
    + intros k0 s. unfold MD_entries. simpl. rewrite lookup_alter_eq.
      destruct (w_mds w' !! i) as [m|] eqn:Hm; simpl; [|done].
      destruct (decide (k = k0)) as [->|Hk].
      * rewrite lookup_insert_eq. intros [= ->].
        destruct (Hwhere s eq_refl) as [(s0 & Hs0 & ->)|Hfr].
        { by apply (Hout' k0). }
        intros Ha. by apply Hfr, Hdom.
      * rewrite lookup_insert_ne by done. intros Hk0. apply (Hout k0).
        unfold MD_entries. simpl. by rewrite Hm.
  - split; [apply Hmap'|]. split; [done|].
    intros k0 s. unfold MD_entries. simpl. rewrite lookup_alter_eq.
    destruct (w_mds w' !! i) as [m|] eqn:Hm; simpl; [|done].
    intros Hk0. apply (Hout k0). unfold MD_entries. simpl. rewrite Hm. simpl.
    by apply lookup_delete_Some in Hk0 as [_ ?].
  - destruct (default None (MD_entries w' (Some i) !! k)) as [s0|] eqn:Hs0;
      simpl; [|by split].
    case_decide; simpl; [|by split].
    split; [done|]. split; [|done].
    intros a Ha. destruct (Harrs a Ha) as [Heq Hin]. split; [|done].
      simpl.
    rewrite lookup_alter_ne; [done|]. intros <-. by apply (Hout' k s0).
Qed.

Lemma MD_apply_all_shielded (w0 : World) (o : loc) (O : gset loc) (i : loc)
    (w' : World) (ops : list MDop) :
  i ≠ o → shielded w0 o O i w' → shielded w0 o O i (MD_apply_all i ops w').2.
Proof.
  intros Hne. revert w'. induction ops as [|op ops IH]; intros w' Hsh; [done|].
  simpl. unfold mbind, M_bind.
  pose proof (MD_apply_shielded w0 o O i w' op Hne Hsh) as Hsh'.
  destruct (MD_apply i op w') as [[] w1]. by apply IH.
Qed.

(** X13: The copy the default director takes is independent of the incoming
    metadata in the other direction too: whatever is done to the incoming
    metadata after the director has returned, the outgoing metadata reads as
    it did when the director returned, which is as the incoming metadata
    did when the director was called, under lower-cased keys. *)
Theorem DefaultDirector_outgoing_kept (cc : option ClientConn) (ctx : Context)
    (fullMethodName : string) (w : World) (i : loc) :
  MD_ok w (ctx_incoming ctx) → ctx_incoming ctx = Some i →
  let r := DefaultDirector cc ctx fullMethodName w in
  ∀ ops,
    MD_read (MD_apply_all i ops r.2).2 (ctx_outgoing r.1.1.1)
    = MD_read r.2 (ctx_outgoing r.1.1.1) ∧
    lower_cased w (MD_read w (Some i))
      (MD_read (MD_apply_all i ops r.2).2 (ctx_outgoing r.1.1.1)).
Proof.
  intros Hok Hi. cbv zeta.
  destruct (DefaultDirector_spec cc ctx fullMethodName w Hok)
    as (o & w0 & -> & Hdet & Hlow & Halloc).
  cbn [fst snd ctx_outgoing]. rewrite Hi in *.
  destruct Hdet as (Hofresh & Hext & Hmds & Harr).
  set (O := dom (w_strs w0) ∖ dom (w_strs w)).
  assert (i ∈ dom (w_mds w)) as Hidom.
  { simpl in Hok. apply elem_of_dom. by destruct (w_mds w !! i). }
  assert (i ≠ o) as Hne by (by intros ->).
  assert (shielded w0 o O i w0) as Hsh.
  { split; [done|]. split.
    { intros a Ha. split; [done|]. by apply elem_of_difference in Ha as [? _]. }
    intros k s. unfold MD_entries. simpl. rewrite Hmds by done.
    simpl in Hok. destruct (w_mds w !! i) as [m|]; [|done]. simpl.
    intros Hk [_ Hn]%elem_of_difference. apply Hn.
    by apply slice_ok_dom, (Hok k). }
  intros ops.
  assert (MD_read (MD_apply_all i ops w0).2 (Some o) = MD_read w0 (Some o))
    as ->; [|done].
  eapply shielded_read; [by apply MD_apply_all_shielded|].
  intros k s Hk. apply elem_of_difference. split; [by apply (Halloc k)|].
  by apply (Harr k).
Qed.

Lemma DefaultDirector_outgoing_kept_witness :
  let r := DefaultDirector None (mkContext (Some 1) None)
             "/acme.demo.v1.DemoService/Echo" w_mixed in
  MD_read (MD_apply_all 1 [MDstore "X-Test" 0 "2"; MDappend "X-Test" ["3"]]
             r.2).2 (Some 1)
  = {["X-Test" := ["2"; "3"]]} ∧
  MD_read (MD_apply_all 1 [MDstore "X-Test" 0 "2"; MDappend "X-Test" ["3"]]
             r.2).2 (ctx_outgoing r.1.1.1)
  = {["x-test" := ["1"]]}.
Proof.
  assert (MD_ok w_mixed (Some 1)) as Hok by compute_done.
  split; [by vm_compute|].
  destruct (DefaultDirector_outgoing_kept None (mkContext (Some 1) None)
              "/acme.demo.v1.DemoService/Echo" w_mixed 1 Hok eq_refl
              [MDstore "X-Test" 0 "2"; MDappend "X-Test" ["3"]]) as [-> _].
  by vm_compute.
Defined.

(** ** Servers *)

Lemma NewProxy_forwards_unlisted_witness :
  match RegisterService (NewProxy None []) (DefaultDirector None)
          "acme.demo.v1.DemoService" ["Echo"] with
  | Some server' =>
      Server_handleStream server' "acme.demo.v1.DemoService" "Nope"
      = RunHandler (AnyOther "<nil>") (TransparentHandler (DefaultDirector None))
  | None => False
  end.
Proof.
  destruct (RegisterService _ _ _ _) as [server'|] eqn:Hreg;
    [|discriminate Hreg].
  apply (NewProxy_forwards_unlisted _ _ _ _ _ _ Hreg).
  intros [?|?%elem_of_nil]%elem_of_cons; done.
Defined.

(** X15: [RegisterService] needs a service name that is not registered yet,
    and touches nothing else: the unknown-service handler stays, and calls
    of every other service are dispatched as before. *)
Theorem RegisterService_keeps_other_services (server : Server)
    (director : StreamDirector) (serviceName : string)
    (methodNames : list string) (server' : Server) :
  RegisterService server director serviceName methodNames = Some server' →
  services server !! serviceName = None ∧
  unknownStreamDesc server' = unknownStreamDesc server ∧
  ∀ service method, service ≠ serviceName →
    Server_handleStream server' service method
    = Server_handleStream server service method.
Proof.
  unfold RegisterService, Server_RegisterService.
  rewrite fakeDesc_Streams. cbn [ServiceName Streams].
  destruct (services server !! serviceName) eqn:Hfree; [done|].
  intros [= <-]. split; [done|]. split; [done|].
  intros service method Hne. unfold Server_handleStream.
  cbn [services unknownStreamDesc]. by rewrite lookup_insert_ne.
Qed.

Lemma RegisterService_keeps_other_services_witness :
  match RegisterService (NewProxy None []) (DefaultDirector None)
          "acme.demo.v1.DemoService" ["Echo"] with
  | Some server' =>
      Server_handleStream server' "acme.demo.v1.Other" "Echo"
      = RunHandler (AnyOther "<nil>") (TransparentHandler (DefaultDirector None))
  | None => False
  end.
Proof.
  destruct (RegisterService _ _ _ _) as [server'|] eqn:Hreg;
    [|discriminate Hreg].
  destruct (RegisterService_keeps_other_services _ _ _ _ _ Hreg)
    as (_ & _ & Hother).
  rewrite Hother; [reflexivity|]. intros Heq. discriminate Heq.
Defined.

Lemma NewServer_fold (opts : list ServerOption) (server : Server) :
  foldl (λ server opt,
           match opt with
           | ForceServerCodec _ => server
           | UnknownServiceHandler streamHandler =>
               mkServer (services server) (Some streamHandler)
           end) server opts
  = mkServer (services server)
      (match last (omap unknown_of opts) with
       | Some streamHandler => Some streamHandler
       | None => unknownStreamDesc server
       end).
Proof.
  revert server. induction opts as [|opt opts IH]; intros server.
  { by destruct server. }
  cbn [foldl]. rewrite IH. destruct opt as [name|streamHandler]; [done|].
  cbn [omap list_omap unknown_of services unknownStreamDesc].
  rewrite last_cons. by destruct (last (omap unknown_of opts)).
Qed.

(** X16: A server made by [NewProxy] has no service of its own and sends
    every call to an unknown-service handler: the transparent handler of the
    default director, unless the caller's options bring a handler of their
    own, the last of which replaces it. *)
Theorem NewProxy_unknown_handler (dst : option ClientConn)
    (opts : list ServerOption) (service method : string) :
  Server_handleStream (NewProxy dst opts) service method
  = RunHandler (AnyOther "<nil>")
      (default (TransparentHandler (DefaultDirector dst))
         (last (omap unknown_of opts))).
Proof.
  unfold NewProxy, NewServer. rewrite NewServer_fold.
  unfold Server_handleStream. cbn [services unknownStreamDesc].
  rewrite lookup_empty.
  cbn [app omap list_omap unknown_of DefaultProxyServerOpt DefaultProxyOpt].
  rewrite last_cons. by destruct (last (omap unknown_of opts)).
Qed.
